(** * GinkgoTestTreeDataProvider: the test-tree reconciliation engine

    A shallow embedding of [GinkgoTestTreeDataProvider] (the tree data
    provider of the Ginkgo test explorer) and the properties of its
    discovery index, run/result reconciliation, change-detection
    scheduler and click disambiguation.

    Node objects live in a store indexed by references, because the
    provider keeps several references to the same [GinkgoNode] (in
    [_discoveredTests], in [discoveredTestsMap], in [roots], in
    [lastClickedNode]) and mutates [running] and [result] in place. *)

From stdpp Require Import base decidable option list functions gmap strings.
From Stdlib Require Import ZArith Lia.

Local Open Scope Z_scope.

(** ** Data model *)

(** A reference to a [GinkgoNode] object. *)
Definition loc := nat.

(** [TestResult] (./testResult): what the runner reports for one test. *)
Record TestResult := mkTestResult {
  testName : string;
  isPassed : bool;
  output : option string
}.

(** [GinkgoNode] (./ginkgoNode): the fields the provider reads or writes.
    [nodes] holds references to the child objects. *)
Record GinkgoNode := mkGinkgoNode {
  key : string;
  name : string;
  text : string;
  start : Z;
  end_ : Z;
  spec : bool;
  focused : bool;
  running : bool;
  result : option TestResult;
  nodes : list loc
}.

(** The object store: every reference denotes an object. *)
Definition Heap := loc -> GinkgoNode.

(** [vscode.TextDocument] and [vscode.TextEditor], as far as they are read. *)
Record TextDocument := mkTextDocument {
  uri : string;
  languageId : string
}.

Record TextEditor := mkTextEditor {
  document : TextDocument;
  viewColumn : option nat
}.

(** [vscode.TextDocumentChangeEvent]: only the number of content changes
    is inspected, so a change is kept as its inserted text. *)
Record TextDocumentChangeEvent := mkChangeEvent {
  evt_document : TextDocument;
  contentChanges : list string
}.

(** [outliner.GinkgoOutline]. *)
Record GinkgoOutline := mkOutline {
  nested : list loc;
  flat : list loc
}.

Inductive UpdateOn := onSave | onType.

(** Everything the provider does to the outside world, in the order it
    does it. *)
Inductive Effect :=
| TreeChanged (node : option loc)          (* _onDidChangeTreeData.fire *)
| TestRunStarted (node : loc)              (* commands.sendTestRunStarted *)
| HighlightNode (e : TextEditor) (node : loc)
| SetSelectionToNodeStart (e : TextEditor) (node : loc)
| HighlightOff (e : TextEditor)
| ExecuteCommand (command : string)
| AppendLine (line : string)               (* outputChannel.appendLine *)
| ShowErrorMessage (message : string) (items : list string)
| OutputChannelShow.

(** A [NodeJS.Timeout] handle. *)
Definition TimerId := nat.

(** The provider's fields, followed by the part of the environment it
    acts on: the object store, the clock, the pending timeouts (handle
    and due time; every timeout of this class has the same callback,
    [fire(undefined)]) and the trace of effects. *)
Record State := mkState {
  editor : option TextEditor;
  roots : list loc;
  discoveredTestsMap : gmap string loc;
  discoveredTests : list loc;
  rootNode : option loc;
  lastClickedNode : option loc;
  lastClickedTime : option Z;
  documentChangedTimer : option TimerId;
  updateListener : option UpdateOn;
  updateOnTypeDelay : Z;
  doubleClickThreshold : Z;
  heap : Heap;
  clock : Z;
  timers : list (TimerId * Z);
  nextTimer : TimerId;
  trace : list Effect
}.

(** Field updates. *)
Definition set_editor (v : option TextEditor) (st : State) : State :=
  let 'mkState _ b c d e f g h i j k l m n o p := st in mkState v b c d e f g h i j k l m n o p.
Definition set_roots (v : list loc) (st : State) : State :=
  let 'mkState a _ c d e f g h i j k l m n o p := st in mkState a v c d e f g h i j k l m n o p.
Definition set_discoveredTestsMap (v : gmap string loc) (st : State) : State :=
  let 'mkState a b _ d e f g h i j k l m n o p := st in mkState a b v d e f g h i j k l m n o p.
Definition set_discoveredTests (v : list loc) (st : State) : State :=
  let 'mkState a b c _ e f g h i j k l m n o p := st in mkState a b c v e f g h i j k l m n o p.
Definition set_rootNode (v : option loc) (st : State) : State :=
  let 'mkState a b c d _ f g h i j k l m n o p := st in mkState a b c d v f g h i j k l m n o p.
Definition set_lastClickedNode (v : option loc) (st : State) : State :=
  let 'mkState a b c d e _ g h i j k l m n o p := st in mkState a b c d e v g h i j k l m n o p.
Definition set_lastClickedTime (v : option Z) (st : State) : State :=
  let 'mkState a b c d e f _ h i j k l m n o p := st in mkState a b c d e f v h i j k l m n o p.
Definition set_documentChangedTimer (v : option TimerId) (st : State) : State :=
  let 'mkState a b c d e f g _ i j k l m n o p := st in mkState a b c d e f g v i j k l m n o p.
Definition set_updateListener (v : option UpdateOn) (st : State) : State :=
  let 'mkState a b c d e f g h _ j k l m n o p := st in mkState a b c d e f g h v j k l m n o p.
Definition set_updateOnTypeDelay (v : Z) (st : State) : State :=
  let 'mkState a b c d e f g h i _ k l m n o p := st in mkState a b c d e f g h i v k l m n o p.
Definition set_doubleClickThreshold (v : Z) (st : State) : State :=
  let 'mkState a b c d e f g h i j _ l m n o p := st in mkState a b c d e f g h i j v l m n o p.
Definition set_heap (v : Heap) (st : State) : State :=
  let 'mkState a b c d e f g h i j k _ m n o p := st in mkState a b c d e f g h i j k v m n o p.
Definition set_clock (v : Z) (st : State) : State :=
  let 'mkState a b c d e f g h i j k l _ n o p := st in mkState a b c d e f g h i j k l v n o p.
Definition set_timers (v : list (TimerId * Z)) (st : State) : State :=
  let 'mkState a b c d e f g h i j k l m _ o p := st in mkState a b c d e f g h i j k l m v o p.
Definition set_nextTimer (v : TimerId) (st : State) : State :=
  let 'mkState a b c d e f g h i j k l m n _ p := st in mkState a b c d e f g h i j k l m n v p.
Definition set_trace (v : list Effect) (st : State) : State :=
  let 'mkState a b c d e f g h i j k l m n o _ := st in mkState a b c d e f g h i j k l m n o v.

(** ** Environment primitives *)

(** Appending one effect to the trace. *)
Definition emit (e : Effect) (st : State) : State :=
  set_trace (trace st ++ [e]) st.

(** [this._onDidChangeTreeData.fire(node)]. *)
Definition fire (node : option loc) (st : State) : State :=
  emit (TreeChanged node) st.

(** In-place writes to a node object. *)
Definition with_running (b : bool) (n : GinkgoNode) : GinkgoNode :=
  mkGinkgoNode (key n) (name n) (text n) (start n) (end_ n) (spec n)
               (focused n) b (result n) (nodes n).

Definition with_result (r : option TestResult) (n : GinkgoNode) : GinkgoNode :=
  mkGinkgoNode (key n) (name n) (text n) (start n) (end_ n) (spec n)
               (focused n) (running n) r (nodes n).

Definition write_running (l : loc) (b : bool) (st : State) : State :=
  set_heap (<[l := with_running b (heap st l)]> (heap st)) st.

Definition write_result (l : loc) (r : option TestResult) (st : State) : State :=
  set_heap (<[l := with_result r (heap st l)]> (heap st)) st.

(** The longest delay of a Node timer, 2^31 - 1 milliseconds. *)
Definition TIMEOUT_MAX : Z := 2147483647.

(** The delay a Node timer runs with: a delay below 1 or above
    [TIMEOUT_MAX] is set to 1. *)
Definition timeoutDelay (delay : Z) : Z :=
  if (1 <=? delay) && (delay <=? TIMEOUT_MAX) then delay else 1.

(** [setTimeout(() => fire(undefined), delay)]: a fresh handle, due the
    timer's delay after the current time. *)
Definition setTimeout (delay : Z) (st : State) : State * TimerId :=
  let id := nextTimer st in
  (set_nextTimer (S id)
     (set_timers (timers st ++ [(id, clock st + timeoutDelay delay)]) st), id).

(** [clearTimeout(id)]: the timeout is dropped if it is still pending. *)
Definition clearTimeout (id : TimerId) (st : State) : State :=
  set_timers (filter (fun t => fst t ≠ id) (timers st)) st.

(** ** Completions and promises *)

(** How a call ends: with a value, or with an exception leaving it. *)
Inductive Completion (A : Type) :=
| Normal (a : A)
| Thrown (err : string).
Arguments Normal {A} a.
Arguments Thrown {A} err.

(** How the promise of [outlineFromDoc] settles. *)
Inductive Settled :=
| Resolved (outline : GinkgoOutline)
| Rejected (err : string).

(** ** The provider *)

Section Provider.

(** [isRootNode] comes from ./ginkgoNode and [GO_MODE.language] from
    ./ginkgoTestExplorer; both are imported, so they are kept abstract. *)
Variable isRootNode : GinkgoNode -> bool.
Variable GO_MODE_language : string.

(** The double-quote character of the log line of [getChildren]. *)
Definition dquote : string := String (Ascii.ascii_of_nat 34) EmptyString.

(** [isMainEditor]: the editor has a view column. *)
Definition isMainEditor (e : TextEditor) : bool :=
  match viewColumn e with
  | Some _ => true
  | None => false
  end.

(** [setUpdateOn]: the previous listener is disposed and the one for the
    given mode is subscribed. *)
Definition setUpdateOn (updateOn : UpdateOn) (st : State) : State :=
  set_updateListener (Some updateOn) st.

Definition setUpdateOnTypeDelay (delay : Z) (st : State) : State :=
  set_updateOnTypeDelay (Z.max delay 0) st.

Definition setDoubleClickThreshold (threshold : Z) (st : State) : State :=
  set_doubleClickThreshold (Z.max threshold 0) st.

(** The constructor, for the editor that is active when the provider is
    created and the environment it is created in. *)
Definition new_provider (activeTextEditor : option TextEditor)
    (updateOn : UpdateOn) (delay threshold : Z) (h : Heap) (now : Z) : State :=
  setUpdateOnTypeDelay delay
    (setUpdateOn updateOn
       (mkState activeTextEditor [] ∅ [] None None None None None
                delay threshold h now [] O [])).

(** [onTestRunStarted]. *)
Definition onTestRunStarted (testNode : loc) (st : State) : State :=
  fire (Some testNode) (write_running testNode true st).

(** Modelled from the spec: [Commands.sendTestRunStarted] is not among
    the sources. It raises the "test run started" event, whose payload
    is the node; the handler the constructor registers with
    [commands.testRunStarted], [onTestRunStarted], is invoked with it. *)
Definition sendTestRunStarted (node : loc) (st : State) : State :=
  onTestRunStarted node (emit (TestRunStarted node) st).

(** [array.forEach] with a callback that may fail to finish. *)
Fixpoint forEachM {A : Type} (f : A -> State -> option State) (l : list A)
    (st : State) : option State :=
  match l with
  | [] => Some st
  | x :: l' =>
      match f x st with
      | Some st' => forEachM f l' st'
      | None => None
      end
  end.

(** [prepareToRunTest]. The recursion goes through the discovered set by
    key, so it is bounded by [fuel]; [None] means the bound was hit. *)
Fixpoint prepareToRunTest (fuel : nat) (node : loc) (st : State) : option State :=
  match fuel with
  | O => None
  | S fuel' =>
      forEachM
        (fun node st =>
           let st1 := sendTestRunStarted node st in
           if (0 <? length (nodes (heap st1 node)))%nat
           then forEachM (prepareToRunTest fuel') (nodes (heap st1 node)) st1
           else Some st1)
        (filter (fun test => key (heap st test) = key (heap st node))
                (discoveredTests st))
        st
  end.

(** [onActiveEditorChanged]. *)
Definition onActiveEditorChanged (e : option TextEditor) (st : State) : State :=
  match e with
  | Some e' =>
      if negb (isMainEditor e') then st
      else fire None (set_roots [] (set_editor e st))
  | None => fire None (set_roots [] (set_editor e st))
  end.

Definition isDocumentForActiveEditor (doc : TextDocument) (st : State) : bool :=
  match editor st with
  | None => false
  | Some e => bool_decide (uri (document e) = uri doc)
  end.

(** [onDocumentChanged]. *)
Definition onDocumentChanged (evt : TextDocumentChangeEvent) (st : State) : State :=
  if negb (isDocumentForActiveEditor (evt_document evt) st) then st
  else if (length (contentChanges evt) =? 0)%nat then st
  else
    let st1 := set_roots [] st in
    let st2 :=
      match documentChangedTimer st1 with
      | Some id => set_documentChangedTimer None (clearTimeout id st1)
      | None => st1
      end in
    let '(st3, id) := setTimeout (updateOnTypeDelay st2) st2 in
    set_documentChangedTimer (Some id) st3.

(** [onDocumentSaved]. *)
Definition onDocumentSaved (doc : TextDocument) (st : State) : State :=
  if negb (isDocumentForActiveEditor doc st) then st
  else fire None (set_roots [] st).

(** [await p]: the value, or the rejection thrown. *)
Definition await (p : Settled) : Completion GinkgoOutline :=
  match p with
  | Resolved outline => Normal outline
  | Rejected err => Thrown err
  end.

(** [getChildren] suspends once, at [await this.outlineFromDoc(...)].
    What it does up to there: it returns, or it asks for the outline of a
    document. *)
Inductive ReadStep :=
| Returned (children : option (list loc))
| Awaiting (doc : TextDocument).

(** The last two statements of [getChildren]. *)
Definition childrenOf (element : option loc) (st : State) : option (list loc) :=
  match element with
  | None => Some (roots st)
  | Some n => Some (nodes (heap st n))
  end.

Definition getChildren_begin (element : option loc) (st : State) : State * ReadStep :=
  match editor st with
  | None => (st, Returned None)
  | Some e =>
      if bool_decide (languageId (document e) ≠ GO_MODE_language) then
        (emit (AppendLine ("Did not populate outline view: document " ++
                           dquote ++ uri (document e) ++ dquote ++
                           " language is not Go.")) st,
         Returned None)
      else if (length (roots st) =? 0)%nat then (st, Awaiting (document e))
      else (st, Returned (childrenOf element st))
  end.

(** What [getChildren] does once the promise has settled, in the state
    the provider is in by then. *)
Definition getChildren_resume (element : option loc) (p : Settled) (st : State)
    : State * Completion (option (list loc)) :=
  match await p with
  | Normal outline =>
      let st1 := set_roots (nested outline) st in
      (st1, Normal (childrenOf element st1))
  | Thrown err =>
      let st1 := emit (AppendLine ("Could not populate the outline view: " ++ err)) st in
      let st2 := emit (ShowErrorMessage "Could not populate the outline view" ["Open Log"]) st1 in
      (st2, Normal None)
  end.

(** A read during which no other handler runs. *)
Definition getChildren (outlineFromDoc : TextDocument -> Settled)
    (element : option loc) (st : State) : State * Completion (option (list loc)) :=
  match getChildren_begin element st with
  | (st1, Returned v) => (st1, Normal v)
  | (st1, Awaiting doc) => getChildren_resume element (outlineFromDoc doc) st1
  end.

(** The continuation of [showErrorMessage]: what the user picked. *)
Definition onErrorMessageAction (action : option string) (st : State) : State :=
  if bool_decide (action = Some "Open Log") then emit OutputChannelShow st else st.

(** [wasRecentlyClicked]. *)
Definition wasRecentlyClicked (threshold : Z) (lastClickedNode : GinkgoNode)
    (lastClickedTime : Z) (currentNode : GinkgoNode) (currentTime : Z) : bool :=
  let isSameNode :=
    (start lastClickedNode =? start currentNode) &&
    (end_ lastClickedNode =? end_ currentNode) in
  let wasRecentlyClicked := currentTime - lastClickedTime <? threshold in
  isSameNode && wasRecentlyClicked.

(** JavaScript truthiness of a number. *)
Definition truthy (n : Z) : bool := negb (n =? 0).

(** [clickTreeItem]; [Date.now()] reads the clock. *)
Definition clickTreeItem (element : loc) (st : State) : State :=
  match editor st with
  | None => st
  | Some e =>
      let now := clock st in
      let recentlyClicked :=
        match lastClickedTime st, lastClickedNode st with
        | Some t, Some n =>
            if truthy t
            then wasRecentlyClicked (doubleClickThreshold st) (heap st n) t
                                    (heap st element) now
            else false
        | _, _ => false
        end in
      let st1 := set_lastClickedNode (Some element)
                   (set_lastClickedTime (Some now) st) in
      if negb recentlyClicked then emit (HighlightNode e element) st1
      else
        emit (ExecuteCommand "workbench.action.focusActiveEditorGroup")
          (emit (HighlightOff e)
             (emit (SetSelectionToNodeStart e element) st1))
  end.

(** The index built by the [forEach] of [onDicoveredTest]. *)
Definition buildIndex (h : Heap) (nodes : list loc) : gmap string loc :=
  foldl (fun m node => <[key (h node) := node]> m) ∅ nodes.

(** [onDicoveredTest]. The discovered set is the array itself: the
    conditional [nodes && nodes.length > 0 ? nodes : []] only replaces an
    empty array by an empty array. *)
Definition onDicoveredTest (nodes : list loc) (st : State) : State :=
  let st1 := set_rootNode (List.find (fun n => isRootNode (heap st n)) nodes) st in
  let st2 := set_discoveredTests nodes st1 in
  set_discoveredTestsMap (buildIndex (heap st2) (discoveredTests st2)) st2.

(** The body of the first [forEach] of [onTestResult]; [inResults] is
    threaded along with the state. *)
Definition recordResult (acc : State * list string) (r : TestResult)
    : State * list string :=
  let '(st, inResults) := acc in
  match discoveredTestsMap st !! testName r with
  | Some testNode =>
      if running (heap st testNode) then
        let st1 := write_running testNode false st in
        let st2 := write_result testNode (Some r) st1 in
        (fire (Some testNode) st2, inResults ++ [key (heap st2 testNode)])
      else acc
  | None => acc
  end.

(** The body of the second [forEach]. *)
Definition forceStopped (st : State) (testNode : loc) : State :=
  fire (Some testNode) (write_running testNode false st).

(** The nodes the sweep selects. *)
Definition stillRunning (inResults : list string) (st : State) : list loc :=
  filter (fun t => negb (bool_decide (key (heap st t) ∈ inResults)) && running (heap st t) = true)
         (discoveredTests st).

(** [onTestResult]. *)
Definition onTestResult (testResults : list TestResult) (st : State) : State :=
  let '(st1, inResults) := foldl recordResult (st, []) testResults in
  foldl forceStopped st1 (stillRunning inResults st1).

(** ** The event loop *)

Inductive Event :=
| Discovered (nodes : list loc)
| RunStarted (node : loc)
| Results (testResults : list TestResult)
| ActiveEditorChanged (e : option TextEditor)
| DocumentChanged (evt : TextDocumentChangeEvent)
| DocumentSaved (doc : TextDocument)
| Click (node : loc).

(** An event reaches the handler subscribed to it; the two document
    events only reach the one [setUpdateOn] subscribed. *)
Definition dispatch (ev : Event) (st : State) : State :=
  match ev with
  | Discovered nodes => onDicoveredTest nodes st
  | RunStarted node => onTestRunStarted node st
  | Results testResults => onTestResult testResults st
  | ActiveEditorChanged e => onActiveEditorChanged e st
  | DocumentChanged evt =>
      match updateListener st with
      | Some onType => onDocumentChanged evt st
      | _ => st
      end
  | DocumentSaved doc =>
      match updateListener st with
      | Some onSave => onDocumentSaved doc st
      | _ => st
      end
  | Click node => clickTreeItem node st
  end.

(** Time passes until [t]: every timeout due by then runs its callback,
    [fire(undefined)], and is no longer pending. *)
Definition advance (t : Z) (st : State) : State :=
  let due := filter (fun tm => snd tm <= t) (timers st) in
  let pending := filter (fun tm => ¬ snd tm <= t) (timers st) in
  set_clock t (foldl (fun st _ => fire None st) (set_timers pending st) due).

(** Events arriving at the given times, in order. *)
Fixpoint run (evs : list (Z * Event)) (st : State) : State :=
  match evs with
  | [] => st
  | (t, ev) :: evs' => run evs' (dispatch ev (advance t st))
  end.

End Provider.

(** ** The vocabulary of the properties *)

(** Two objects agree on the fields no handler ever writes that the
    handlers read: the key, the span and the children. *)
Definition same_shape (n n' : GinkgoNode) : Prop :=
  key n = key n' ∧ start n = start n' ∧ end_ n = end_ n' ∧ nodes n = nodes n'.

(** The index agrees with the discovered set: an entry leads to a node
    carrying that key, and every discovered node is found under its key.
    This is what a discovery with unique keys establishes, and no handler
    breaks it, as keys are never written. *)
Definition indexed (st : State) : Prop :=
  (∀ k n, discoveredTestsMap st !! k = Some n -> key (heap st n) = k) ∧
  (∀ n, n ∈ discoveredTests st -> discoveredTestsMap st !! key (heap st n) = Some n).

(** What [onTestResult] may do to a state: the discovered set, the index
    and the shape of the objects stay, and an object that is not running
    is not touched at all. *)
Definition calmer (st st' : State) : Prop :=
  discoveredTests st' = discoveredTests st ∧
  discoveredTestsMap st' = discoveredTestsMap st ∧
  (∀ l, same_shape (heap st l) (heap st' l)) ∧
  (∀ l, running (heap st l) = false -> heap st' l = heap st l).

(** A node is settled: it stops running, gets the result, and the view
    is told about it. *)
Definition settle (l : loc) (r : TestResult) (st : State) : State :=
  fire (Some l) (write_result l (Some r) (write_running l false st)).

(** The loop over the results, as the pair it computes. *)
Definition resultsLoop (testResults : list TestResult) (st : State)
    : State * list string :=
  foldl recordResult (st, []) testResults.

(** The effects of a confirmed double click and of a single click. *)
Definition doubleClickIntent (e : TextEditor) (N : loc) : list Effect :=
  [SetSelectionToNodeStart e N; HighlightOff e;
   ExecuteCommand "workbench.action.focusActiveEditorGroup"].

Definition singleClickIntent (e : TextEditor) (N : loc) : list Effect :=
  [HighlightNode e N].

(** The previous click was on a node with the span of [N] and less than
    the threshold before the current time. *)
Definition sameSpanRecently (N : loc) (st : State) : Prop :=
  ∃ P t, lastClickedNode st = Some P ∧ lastClickedTime st = Some t ∧
         start (heap st P) = start (heap st N) ∧
         end_ (heap st P) = end_ (heap st N) ∧
         clock st - t < doubleClickThreshold st.

Definition mainOrNone (e : option TextEditor) : Prop :=
  match e with
  | Some e' => isMainEditor e' = true
  | None => True
  end.

(** What a failed parse adds to the trace. *)
Definition parseFailureReport (err : string) : list Effect :=
  [AppendLine ("Could not populate the outline view: " ++ err);
   ShowErrorMessage "Could not populate the outline view" ["Open Log"]].

(** The timer state: what is pending, and the handle the provider
    remembers. *)
Definition sched (st : State) : list (TimerId * Z) * option TimerId :=
  (timers st, documentChangedTimer st).

(** At most one timeout is pending, and it is the remembered one. *)
Definition oneTimer (st : State) : Prop :=
  timers st = [] ∨
  ∃ id due, timers st = [(id, due)] ∧ documentChangedTimer st = Some id.

(** A document-changed event for the tracked document that carries a
    change. *)
Definition relevant (st : State) (evt : TextDocumentChangeEvent) : Prop :=
  isDocumentForActiveEditor (evt_document evt) st = true ∧ contentChanges evt ≠ [].

(** Each event arrives less than [d] after the previous one (the first
    after time [t]). *)
Fixpoint spaced (d t : Z) (evs : list (Z * TextDocumentChangeEvent)) : Prop :=
  match evs with
  | [] => True
  | (t', _) :: evs' => t <= t' < t + d ∧ spaced d t' evs'
  end.

(** The events as the event loop receives them. *)
Definition typing (evs : list (Z * TextDocumentChangeEvent)) : list (Z * Event) :=
  (fun te => (te.1, DocumentChanged te.2)) <$> evs.

(** The arrival time of the last event, [t] if there is none. *)
Definition lastTime (t : Z) (evs : list (Z * TextDocumentChangeEvent)) : Z :=
  default t (last (fst <$> evs)).

(** The scheduler right after a relevant event at time [t]: one timeout,
    due at [t + d], remembered; the listener is the on-type one and [d]
    is the delay its timers run with. *)
Definition armed (d t : Z) (tr : list Effect) (ed : option TextEditor) (s : State) : Prop :=
  (∃ id, timers s = [(id, t + d)] ∧ documentChangedTimer s = Some id) ∧
  trace s = tr ∧ editor s = ed ∧
  updateListener s = Some onType ∧ timeoutDelay (updateOnTypeDelay s) = d.

(** The subtree at [l] has at most [n] levels. *)
Fixpoint height_le (h : Heap) (n : nat) (l : loc) : bool :=
  match n with
  | O => false
  | S n' => forallb (height_le h n') (nodes (h l))
  end.

(** The nodes of the subtree at [l], parents before children, down to
    [n] levels. *)
Fixpoint preorder (h : Heap) (n : nat) (l : loc) : list loc :=
  match n with
  | O => []
  | S n' => l :: (nodes (h l) ≫= preorder h n')
  end.

(** [m] is [l] or below it. *)
Inductive descendant (h : Heap) : loc -> loc -> Prop :=
| descendant_self l : descendant h l l
| descendant_child l c m :
    c ∈ nodes (h l) -> descendant h c m -> descendant h l m.

(** What one [sendTestRunStarted] per node adds to the trace. *)
Definition runStartedSignals (L : list loc) : list Effect :=
  L ≫= (fun m => [TestRunStarted m; TreeChanged (Some m)]).

(** The states met during the recursion: the same discovered set and
    objects of the same shape. *)
Definition during (st s : State) : Prop :=
  discoveredTests s = discoveredTests st ∧
  ∀ l, same_shape (heap st l) (heap s l).

(** The effect of the recursion on a list of subtrees, given its effect
    on each. *)
Definition marked (st : State) (L : list loc) (s s' : State) : Prop :=
  during st s' ∧
  trace s' = trace s ++ runStartedSignals L ∧
  ∀ x, running (heap s' x) = if decide (x ∈ L) then true else running (heap s x).

(** ** A running example: [root, containerX {specA, specB}] *)

Module Example.

Definition blank : GinkgoNode :=
  mkGinkgoNode "" "" "" 0 0 false false false None [].

Definition root : GinkgoNode :=
  mkGinkgoNode "root" "root" "root" 0 100 false false false None [1%nat].
Definition containerX : GinkgoNode :=
  mkGinkgoNode "X" "Describe" "X" 0 90 false false false None [2%nat; 3%nat].
Definition specA : GinkgoNode :=
  mkGinkgoNode "X A" "It" "A" 0 10 true false false None [].
Definition specB : GinkgoNode :=
  mkGinkgoNode "X B" "It" "B" 20 30 true false false None [].

Definition h0 : Heap := fun l =>
  match l with
  | 0 => root
  | 1 => containerX
  | 2 => specA
  | 3 => specB
  | _ => blank
  end%nat.

Definition isRoot (n : GinkgoNode) : bool := bool_decide (key n = "root").

Definition doc : TextDocument := mkTextDocument "file:///suite_test.go" "go".
Definition ed : TextEditor := mkTextEditor doc (Some 1%nat).

(** A provider created on [ed], on-type updates after 300ms, double
    clicks within 400ms, at time 1000. *)
Definition s0 : State := new_provider (Some ed) onType 300 400 h0 1000.

(** The same after the discovery of the whole outline. *)
Definition s1 : State := onDicoveredTest isRoot [0; 1; 2; 3]%nat s0.

(** The example store with [containerX], [specA] and [specB] running. *)
Definition hr : Heap := fun l =>
  match l with
  | 1 | 2 | 3 => with_running true (h0 l)
  | _ => h0 l
  end%nat.

Definition r1 : State :=
  onDicoveredTest isRoot [0; 1; 2; 3]%nat (new_provider (Some ed) onType 300 400 hr 1000).

Definition passedA : TestResult := mkTestResult "X A" true None.
Definition unknown : TestResult := mkTestResult "no such test" false (Some "FAIL").

Definition change : TextDocumentChangeEvent := mkChangeEvent doc ["x"].
Definition noChange : TextDocumentChangeEvent := mkChangeEvent doc [].

(** Two running nodes carrying the same key. *)
Definition twin : GinkgoNode :=
  mkGinkgoNode "X A" "It" "A" 40 50 true false true None [].

Definition hd : Heap := fun l =>
  match l with
  | 0 | 1 => twin
  | _ => blank
  end%nat.

Definition d1 : State :=
  onDicoveredTest isRoot [0; 1]%nat (new_provider (Some ed) onType 300 400 hd 1000).

(** The outline of the example, and a parser that returns it. *)
Definition outline0 : GinkgoOutline := mkOutline [0%nat] [0; 1; 2; 3]%nat.
Definition parsed : TextDocument -> Settled := fun _ => Resolved outline0.

(** An editor on a file that is not Go. *)
Definition readme : TextEditor :=
  mkTextEditor (mkTextDocument "file:///README.md" "markdown") (Some 1%nat).

(** The provider of the example with on-save updates. *)
Definition sv : State := new_provider (Some ed) onSave 300 400 h0 1000.


(** The provider of the example with a timeout pending for 1300. *)
Definition sp : State := onDocumentChanged change s1.

End Example.

(** ** The tooltip of a node *)

(** The line feed of the tooltip's template. *)
Definition newline : string := String (Ascii.ascii_of_nat 10) EmptyString.

(** A boolean inside a template literal. *)
Definition boolText (b : bool) : string := if b then "true" else "false".

(** JavaScript truthiness of an optional string: undefined and the empty
    string are falsy. *)
Definition truthyString (o : option string) : bool :=
  match o with
  | Some s => negb (String.eqb s "")
  | None => false
  end.

(** The [result] variable of [tooltipForGinkgoNode]. *)
Definition resultText (element : GinkgoNode) : string :=
  match result element with
  | None => "-"
  | Some r =>
      if isPassed r then "passed"
      else if truthyString (output r)
           then newline ++ newline ++ default "" (output r)
           else "not passed"
  end.

(** [vscode.MarkdownString]: the text and the flag of its constructor. *)
Record MarkdownString := mkMarkdownString {
  md_value : string;
  md_supportThemeIcons : bool
}.

(** One line of the template: the label, the value, two spaces, the
    escaped line feed and the line feed of the source. *)
Definition tooltipLine (label value : string) : string :=
  label ++ value ++ "  " ++ newline ++ newline.

(** [tooltipForGinkgoNode]. How JavaScript prints a number inside a
    template literal is kept abstract. *)
Definition tooltipForGinkgoNode (numberText : Z -> string) (element : GinkgoNode)
    : MarkdownString :=
  mkMarkdownString
    (tooltipLine "**name:** " (name element) ++
     tooltipLine "**text:** " (text element) ++
     tooltipLine "**start:** " (numberText (start element)) ++
     tooltipLine "**end:** " (numberText (end_ element)) ++
     tooltipLine "**spec:** " (boolText (spec element)) ++
     tooltipLine "**focused:** " (boolText (focused element)) ++
     "**result:** " ++ resultText element)
    false.

(** ** The status bar (src/statusBar.ts) *)

Module StatusBar.

Definition runAllProjectTests : string :=
  "$(testing-run-all-icon) Run all project tests".
Definition runProjectCoverage : string := "$(shield) Run project coverage".

(** [vscode.StatusBarItem], as far as the class uses it. *)
Record StatusBarItem := mkItem {
  priority : Z;
  item_command : option string;
  item_text : string;
  item_tooltip : string;
  visible : bool
}.

(** [vscode.window.createStatusBarItem(StatusBarAlignment.Left, priority)]:
    a hidden item without text. *)
Definition createStatusBarItem (priority : Z) : StatusBarItem :=
  mkItem priority None "" "" false.

(** What the class does to the outside world. *)
Inductive BarEffect :=
| Executed (command : string)            (* vscode.commands.executeCommand *)
| OutputShown (preserveFocus : bool).    (* outputChannel.show *)

(** The fields of the class, and the trace of its effects. *)
Record Bar := mkBar {
  commandsStatusBarItem : StatusBarItem;
  runningCommandStatusBarItem : StatusBarItem;
  clickCommandsStatusBarCommand : string;
  clickRunningStatusBarCommand : string;
  runAllProjectTestCommand : string;
  generateProjectCoverageCommand : string;
  effects : list BarEffect
}.

Definition with_commandsItem (i : StatusBarItem) (b : Bar) : Bar :=
  mkBar i (runningCommandStatusBarItem b) (clickCommandsStatusBarCommand b)
        (clickRunningStatusBarCommand b) (runAllProjectTestCommand b)
        (generateProjectCoverageCommand b) (effects b).

Definition with_runningItem (i : StatusBarItem) (b : Bar) : Bar :=
  mkBar (commandsStatusBarItem b) i (clickCommandsStatusBarCommand b)
        (clickRunningStatusBarCommand b) (runAllProjectTestCommand b)
        (generateProjectCoverageCommand b) (effects b).

Definition with_effect (e : BarEffect) (b : Bar) : Bar :=
  mkBar (commandsStatusBarItem b) (runningCommandStatusBarItem b)
        (clickCommandsStatusBarCommand b) (clickRunningStatusBarCommand b)
        (runAllProjectTestCommand b) (generateProjectCoverageCommand b)
        (effects b ++ [e]).

Definition set_text (s : string) (i : StatusBarItem) : StatusBarItem :=
  mkItem (priority i) (item_command i) s (item_tooltip i) (visible i).
Definition set_tooltip (s : string) (i : StatusBarItem) : StatusBarItem :=
  mkItem (priority i) (item_command i) (item_text i) s (visible i).
Definition set_command (c : string) (i : StatusBarItem) : StatusBarItem :=
  mkItem (priority i) (Some c) (item_text i) (item_tooltip i) (visible i).
Definition show (i : StatusBarItem) : StatusBarItem :=
  mkItem (priority i) (item_command i) (item_text i) (item_tooltip i) true.
Definition hide (i : StatusBarItem) : StatusBarItem :=
  mkItem (priority i) (item_command i) (item_text i) (item_tooltip i) false.

(** The constructor. *)
Definition new_bar (clickCommands clickRunning runAll coverage : string) : Bar :=
  mkBar
    (show
       (set_tooltip "Select and start the run project tests or coverage"
          (set_text runAllProjectTests
             (set_command clickCommands (createStatusBarItem 101)))))
    (set_command clickRunning (createStatusBarItem 100))
    clickCommands clickRunning runAll coverage [].

(** [onClickCommandsStatusBarItem], once the quick pick has been answered
    with the label of the picked item, or dismissed. *)
Definition onClickCommandsStatusBarItem (item : option string) (b : Bar) : Bar :=
  match item with
  | None => b
  | Some label =>
      let b1 := with_commandsItem (set_text label (commandsStatusBarItem b)) b in
      if bool_decide (label = runAllProjectTests)
      then with_effect (Executed (runAllProjectTestCommand b1)) b1
      else if bool_decide (label = runProjectCoverage)
      then with_effect (Executed (generateProjectCoverageCommand b1)) b1
      else b1
  end.

(** [onClickRunningCommandStatusBarItem]. *)
Definition onClickRunningCommandStatusBarItem (b : Bar) : Bar :=
  with_effect (OutputShown true) b.

(** [showRunningCommandBar]. *)
Definition showRunningCommandBar (label : string) (b : Bar) : Bar :=
  with_runningItem
    (show
       (set_tooltip "Click to see the command output"
          (set_text ("$(sync~spin) Running " ++ label)
             (runningCommandStatusBarItem b))))
    b.

(** [hideRunningCommandBar]. *)
Definition hideRunningCommandBar (b : Bar) : Bar :=
  with_runningItem (hide (runningCommandStatusBarItem b)) b.

(** The calls the extension makes on the bar. *)
Inductive BarCall :=
| PickAnswered (item : option string)
| RunningClicked
| ShowRunning (label : string)
| HideRunning.

Definition call (c : BarCall) (b : Bar) : Bar :=
  match c with
  | PickAnswered item => onClickCommandsStatusBarItem item b
  | RunningClicked => onClickRunningCommandStatusBarItem b
  | ShowRunning label => showRunningCommandBar label b
  | HideRunning => hideRunningCommandBar b
  end.

Definition calls (cs : list BarCall) (b : Bar) : Bar :=
  foldl (fun b c => call c b) b cs.

(** The quick pick offers the two labels: an answer is one of them, or
    none. *)
Definition offered (c : BarCall) : Prop :=
  match c with
  | PickAnswered (Some label) => label = runAllProjectTests ∨ label = runProjectCoverage
  | _ => True
  end.

(** The label of the last answered pick. *)
Definition lastPick (cs : list BarCall) : option string :=
  last (omap (fun c => match c with PickAnswered (Some l) => Some l | _ => None end) cs).

(** Whether the running bar is shown after the calls, given whether it
    was before. *)
Definition runningShown (before : bool) (cs : list BarCall) : bool :=
  foldl (fun v c => match c with
                    | ShowRunning _ => true
                    | HideRunning => false
                    | _ => v
                    end) before cs.

(** What a call adds to the effects of a bar with these two commands. *)
Definition effectOf (runAll coverage : string) (c : BarCall) : option BarEffect :=
  match c with
  | PickAnswered (Some label) =>
      Some (Executed (if bool_decide (label = runAllProjectTests)
                      then runAll else coverage))
  | RunningClicked => Some (OutputShown true)
  | _ => None
  end.

End StatusBar.

(** ** More vocabulary *)

(** How many of the events arrive when the timeout armed by the one
    before (the first: by an event at [t]) has expired. *)
Fixpoint expiries (d t : Z) (evs : list (Z * TextDocumentChangeEvent)) : nat :=
  match evs with
  | [] => O
  | (t', _) :: evs' =>
      ((if decide (t + d <= t')%Z then 1 else 0) + expiries d t' evs')%nat
  end.


(** The objects a batch can reach: those the index leads to and those of
    the discovered set. *)
Definition routed (st : State) (l : loc) : Prop :=
  (∃ k, discoveredTestsMap st !! k = Some l) ∨ l ∈ discoveredTests st.

(** Everything of the state but the objects and the trace. *)
Definition provider_fields (st : State) :=
  (editor st, roots st, discoveredTestsMap st, discoveredTests st, rootNode st,
   lastClickedNode st, lastClickedTime st, documentChangedTimer st,
   updateListener st, updateOnTypeDelay st, doubleClickThreshold st,
   clock st, timers st, nextTimer st).

(** What a batch [R] may have done between [st] and [st']: the provider's
    own fields are as before; an object the batch cannot reach is
    untouched; everything added to the trace is the invalidation of a
    reachable node that was running and no longer is; and a result that
    changed is a result of the batch, attached to the node its name
    leads to. *)
Definition reconciled (R : list TestResult) (st st' : State) : Prop :=
  provider_fields st' = provider_fields st ∧
  (∀ l, ¬ routed st l -> heap st' l = heap st l) ∧
  (∃ log, trace st' = trace st ++ log ∧
          ∀ eff, eff ∈ log ->
                 ∃ l, eff = TreeChanged (Some l) ∧ routed st l ∧
                      running (heap st l) = true ∧ running (heap st' l) = false) ∧
  (∀ l, result (heap st' l) = result (heap st l) ∨
        ∃ r, r ∈ R ∧ discoveredTestsMap st !! testName r = Some l ∧
             result (heap st' l) = Some r).

(** Several batches, one after the other. *)
Definition onTestResults (batches : list (list TestResult)) (st : State) : State :=
  foldl (fun s R => onTestResult R s) st batches.

(** What preparing a run may have done between [st] and [st']: the
    provider's own fields are as before; run-started signals, each with
    its invalidation, went out for a list of discovered nodes; these
    nodes are running, and nothing else about any object changed. *)
Definition only_marks (st st' : State) : Prop :=
  provider_fields st' = provider_fields st ∧
  ∃ L, trace st' = trace st ++ runStartedSignals L ∧
       (∀ l, l ∈ L -> l ∈ discoveredTests st) ∧
       ∀ l, heap st' l = if decide (l ∈ L) then with_running true (heap st l)
                         else heap st l.

(** * Properties *)

(** ** Basic facts about the store and the trace *)

Lemma fn_insert_same (h : Heap) (l : loc) (n : GinkgoNode) :
  (<[l := n]> h) l = n.
Proof. apply fn_lookup_insert. Qed.

Lemma fn_insert_other (h : Heap) (l l' : loc) (n : GinkgoNode) :
  l ≠ l' -> (<[l := n]> h) l' = h l'.
Proof. intros Hne. by apply fn_lookup_insert_ne. Qed.

Lemma same_shape_refl n : same_shape n n.
Proof. by repeat split. Qed.

Lemma same_shape_trans n1 n2 n3 :
  same_shape n1 n2 -> same_shape n2 n3 -> same_shape n1 n3.
Proof.
  intros (? & ? & ? & ?) (? & ? & ? & ?). repeat split; congruence.
Qed.

Lemma write_running_heap l b st l' :
  heap (write_running l b st) l' =
  if decide (l = l') then with_running b (heap st l) else heap st l'.
Proof.
  destruct st; simpl. case_decide as Hl.
  - subst. apply fn_insert_same.
  - by apply fn_insert_other.
Qed.

Lemma write_result_heap l r st l' :
  heap (write_result l r st) l' =
  if decide (l = l') then with_result r (heap st l) else heap st l'.
Proof.
  destruct st; simpl. case_decide as Hl.
  - subst. apply fn_insert_same.
  - by apply fn_insert_other.
Qed.

Lemma heap_emit e st : heap (emit e st) = heap st.
Proof. by destruct st. Qed.

Lemma trace_emit e st : trace (emit e st) = trace st ++ [e].
Proof. by destruct st. Qed.

Lemma trace_write_running l b st : trace (write_running l b st) = trace st.
Proof. by destruct st. Qed.

Lemma trace_write_result l r st : trace (write_result l r st) = trace st.
Proof. by destruct st. Qed.

(** ** The discovery index *)

Section Index.

Variable h : Heap.

Lemma buildIndex_snoc (D : list loc) (n : loc) :
  buildIndex h (D ++ [n]) = <[key (h n) := n]> (buildIndex h D).
Proof. unfold buildIndex. by rewrite foldl_app. Qed.

(** A key is mapped to the last node of the set that carries it. *)
Lemma buildIndex_lookup (D : list loc) (k : string) :
  buildIndex h D !! k = last (filter (fun n => key (h n) = k) D).
Proof.
  induction D as [|n D IH] using rev_ind; [done|].
  rewrite buildIndex_snoc, filter_app, filter_cons, filter_nil.
  case_decide as Hk.
  - subst k. by rewrite lookup_insert_eq, last_snoc.
  - rewrite lookup_insert_ne by done. by rewrite app_nil_r.
Qed.

Lemma buildIndex_sound (D : list loc) (k : string) (n : loc) :
  buildIndex h D !! k = Some n -> n ∈ D ∧ key (h n) = k.
Proof.
  rewrite buildIndex_lookup. intros Hl.
  apply last_Some_elem_of, list_elem_of_filter in Hl. tauto.
Qed.

Lemma buildIndex_dom (D : list loc) (n : loc) :
  n ∈ D -> is_Some (buildIndex h D !! key (h n)).
Proof.
  intros Hn. rewrite buildIndex_lookup.
  destruct (last _) as [m|] eqn:Hl; [by eexists|].
  apply last_None in Hl.
  assert (n ∈ filter (fun m => key (h m) = key (h n)) D) as Hin
    by (by apply list_elem_of_filter).
  rewrite Hl in Hin. by apply not_elem_of_nil in Hin.
Qed.

(** With unique keys every node of the set is found under its key. *)
Lemma buildIndex_complete (D : list loc) (n : loc) :
  NoDup (key ∘ h <$> D) -> n ∈ D -> buildIndex h D !! key (h n) = Some n.
Proof.
  intros Hnd Hn. destruct (buildIndex_dom D n Hn) as [m Hm].
  rewrite Hm. f_equal.
  apply buildIndex_sound in Hm as [Hm Hk].
  apply list_elem_of_lookup in Hm as [i Hi], Hn as [j Hj].
  assert (i = j) as ->.
  { eapply NoDup_lookup; [exact Hnd| |].
    - rewrite list_lookup_fmap, Hi. simpl. reflexivity.
    - rewrite list_lookup_fmap, Hj. simpl. by rewrite Hk. }
  congruence.
Qed.

End Index.

Section Discovery.

Variable isRootNode : GinkgoNode -> bool.

Lemma onDicoveredTest_fields (D : list loc) (st : State) :
  let st' := onDicoveredTest isRootNode D st in
  heap st' = heap st ∧ trace st' = trace st ∧
  discoveredTests st' = D ∧
  discoveredTestsMap st' = buildIndex (heap st) D ∧
  rootNode st' = List.find (fun n => isRootNode (heap st n)) D.
Proof. by destruct st. Qed.

Lemma onDicoveredTest_indexed (D : list loc) (st : State) :
  NoDup (key ∘ heap st <$> D) -> indexed (onDicoveredTest isRootNode D st).
Proof.
  intros Hnd.
  destruct (onDicoveredTest_fields D st) as (Hh & _ & Hd & Hm & _).
  unfold indexed. rewrite Hh, Hd, Hm. split.
  - intros k n Hk. by apply buildIndex_sound in Hk as [_ ?].
  - intros n Hn. by apply buildIndex_complete.
Qed.

Lemma find_none_iff (D : list loc) (f : loc -> bool) :
  List.find f D = None <-> ∀ n, n ∈ D -> f n = false.
Proof.
  split.
  - intros Hf n Hn. apply list_elem_of_In in Hn.
    by apply (find_none f D Hf).
  - intros Hall. induction D as [|n D IH]; [done|]. simpl.
    rewrite (Hall n) by left. apply IH. intros m Hm. apply Hall. by right.
Qed.

(** C1. Two discoveries [D1] then [D2], with any events in between:
    after [D2] the index maps each key to the last node of [D2] carrying
    it, so an entry always leads to a node of [D2] with that key and,
    when the keys of [D2] are unique, every node of [D2] is found under
    its key; a node of [D1] that is not in [D2] is in no entry; the
    discovered set is [D2]; the root reference is the first node of [D2]
    that is a root, and undefined exactly when [D2] has none. *)
Theorem onDicoveredTest_replaces_index (st : State) (D1 D2 : list loc)
    (between : list (Z * Event)) :
  let st2 := onDicoveredTest isRootNode D2
               (run isRootNode between (onDicoveredTest isRootNode D1 st)) in
  (∀ k, discoveredTestsMap st2 !! k
        = last (filter (fun n => key (heap st2 n) = k) D2)) ∧
  (∀ k n, discoveredTestsMap st2 !! k = Some n -> n ∈ D2 ∧ key (heap st2 n) = k) ∧
  (∀ n, n ∈ D2 -> is_Some (discoveredTestsMap st2 !! key (heap st2 n))) ∧
  (NoDup (key ∘ heap st2 <$> D2) ->
   ∀ n, n ∈ D2 -> discoveredTestsMap st2 !! key (heap st2 n) = Some n) ∧
  (∀ n, n ∈ D1 -> n ∉ D2 -> ∀ k, discoveredTestsMap st2 !! k ≠ Some n) ∧
  discoveredTests st2 = D2 ∧
  rootNode st2 = List.find (fun n => isRootNode (heap st2 n)) D2 ∧
  (rootNode st2 = None <-> ∀ n, n ∈ D2 -> isRootNode (heap st2 n) = false).
Proof.
  intros st2. subst st2.
  set (st1 := run isRootNode between (onDicoveredTest isRootNode D1 st)).
  destruct (onDicoveredTest_fields D2 st1) as (Hh & _ & Hd & Hm & Hr).
  rewrite Hh, Hd, Hm, Hr.
  split; [apply buildIndex_lookup|].
  split; [apply buildIndex_sound|].
  split; [apply buildIndex_dom|].
  split; [intros Hnd n Hn; by apply buildIndex_complete|].
  split.
  { intros n _ Hn k Hk. by apply buildIndex_sound in Hk as [? _]. }
  split; [done|]. split; [done|].
  apply find_none_iff.
Qed.

End Discovery.

(** ** Reconciliation of results *)

Lemma calmer_refl st : calmer st st.
Proof. repeat split; auto using same_shape_refl. Qed.

Lemma calmer_trans st1 st2 st3 : calmer st1 st2 -> calmer st2 st3 -> calmer st1 st3.
Proof.
  intros (Hd1 & Hm1 & Hs1 & Hq1) (Hd2 & Hm2 & Hs2 & Hq2).
  split; [congruence|]. split; [congruence|]. split.
  - intros l. eapply same_shape_trans; eauto.
  - intros l Hl. rewrite Hq2; [by apply Hq1|]. by rewrite Hq1.
Qed.

Lemma calmer_running st st' l :
  calmer st st' -> running (heap st' l) = true -> running (heap st l) = true.
Proof.
  intros (_ & _ & _ & Hq) Hr.
  destruct (running (heap st l)) eqn:E; [done|].
  rewrite (Hq l E) in Hr. congruence.
Qed.

Lemma calmer_key st st' l : calmer st st' -> key (heap st' l) = key (heap st l).
Proof. intros (_ & _ & Hs & _). by destruct (Hs l) as (-> & _). Qed.

Lemma calmer_indexed st st' : calmer st st' -> indexed st -> indexed st'.
Proof.
  intros Hc [H1 H2]. pose proof Hc as (Hd & Hm & _ & _).
  unfold indexed. rewrite Hd, Hm. split.
  - intros k n Hk. rewrite (calmer_key _ _ _ Hc). eauto.
  - intros n Hn. rewrite (calmer_key _ _ _ Hc). eauto.
Qed.

Lemma settle_heap l r st l' :
  heap (settle l r st) l' =
  if decide (l = l') then with_result (Some r) (with_running false (heap st l))
  else heap st l'.
Proof.
  unfold settle, fire. rewrite heap_emit, write_result_heap.
  rewrite !write_running_heap. case_decide; [|done]. by rewrite decide_True.
Qed.

Lemma settle_trace l r st :
  trace (settle l r st) = trace st ++ [TreeChanged (Some l)].
Proof.
  unfold settle, fire. by rewrite trace_emit, trace_write_result, trace_write_running.
Qed.

Lemma settle_calmer l r st :
  running (heap st l) = true -> calmer st (settle l r st).
Proof.
  intros Hr. split; [by destruct st|]. split; [by destruct st|]. split.
  - intros l'. rewrite settle_heap. case_decide; [subst|]; by repeat split.
  - intros l' Hl'. rewrite settle_heap. case_decide; [subst; congruence|done].
Qed.

Lemma forceStopped_heap st t l' :
  heap (forceStopped st t) l' =
  if decide (t = l') then with_running false (heap st t) else heap st l'.
Proof. unfold forceStopped, fire. by rewrite heap_emit, write_running_heap. Qed.

Lemma forceStopped_trace st t :
  trace (forceStopped st t) = trace st ++ [TreeChanged (Some t)].
Proof. unfold forceStopped, fire. by rewrite trace_emit, trace_write_running. Qed.

Lemma forceStopped_calmer st t :
  running (heap st t) = true -> calmer st (forceStopped st t).
Proof.
  intros Hr. split; [by destruct st|]. split; [by destruct st|]. split.
  - intros l'. rewrite forceStopped_heap. case_decide; [subst|]; by repeat split.
  - intros l' Hl'. rewrite forceStopped_heap. case_decide; [subst; congruence|done].
Qed.

(** The two ways one result is handled. *)
Lemma recordResult_cases (st : State) (inResults : list string) (r : TestResult) :
  (recordResult (st, inResults) r = (st, inResults) ∧
   ∀ l, discoveredTestsMap st !! testName r = Some l -> running (heap st l) = false)
  ∨
  (∃ l, discoveredTestsMap st !! testName r = Some l ∧
        running (heap st l) = true ∧
        recordResult (st, inResults) r
        = (settle l r st, inResults ++ [key (heap st l)])).
Proof.
  unfold recordResult.
  destruct (discoveredTestsMap st !! testName r) as [l|] eqn:Hl; [|left; done].
  destruct (running (heap st l)) eqn:Hr.
  - right. exists l. repeat split; [done|]. unfold settle. do 2 f_equal.
    rewrite write_result_heap, write_running_heap. by rewrite !decide_True.
  - left. split; [done|]. by intros ? [= <-].
Qed.

Lemma onTestResult_unfold R st :
  onTestResult R st =
  foldl forceStopped (resultsLoop R st).1
        (stillRunning (resultsLoop R st).2 (resultsLoop R st).1).
Proof. unfold onTestResult, resultsLoop. by destruct (foldl _ _ _). Qed.

Lemma resultsLoop_snoc R r st :
  resultsLoop (R ++ [r]) st = recordResult (resultsLoop R st) r.
Proof. unfold resultsLoop. by rewrite foldl_app. Qed.

Lemma resultsLoop_app R R' st :
  resultsLoop (R ++ R') st = foldl recordResult (resultsLoop R st) R'.
Proof. unfold resultsLoop. by rewrite foldl_app. Qed.

(** After the loop: the state is calmer; every key in [inResults] is the
    key of an indexed node that no longer runs; and no node a result of
    the batch leads to is running. *)
Lemma resultsLoop_spec R st :
  let '(st1, inResults) := resultsLoop R st in
  calmer st st1 ∧
  (∀ k, k ∈ inResults ->
        ∃ s k', discoveredTestsMap st !! k' = Some s ∧
                key (heap st s) = k ∧ running (heap st1 s) = false) ∧
  (∀ r l, r ∈ R -> discoveredTestsMap st !! testName r = Some l ->
          running (heap st1 l) = false).
Proof.
  induction R as [|r R IH] using rev_ind.
  { simpl. split; [apply calmer_refl|]. split.
    - intros k Hk. by apply not_elem_of_nil in Hk.
    - intros r l Hr. by apply not_elem_of_nil in Hr. }
  rewrite resultsLoop_snoc. destruct (resultsLoop R st) as [st1 inR].
  destruct IH as (Hc & Hin & Hall).
  pose proof Hc as (_ & Hm & _ & _).
  destruct (recordResult_cases st1 inR r) as [[-> Hdrop]|(l & Hl & Hr & ->)].
  - split; [done|]. split; [done|].
    intros r' l' Hr' Hl'. apply elem_of_app in Hr' as [Hr'|Hr']; [eauto|].
    apply list_elem_of_singleton in Hr' as ->. apply Hdrop. by rewrite Hm.
  - assert (calmer st1 (settle l r st1)) as Hc1 by (by apply settle_calmer).
    assert (running (heap (settle l r st1) l) = false) as Hoff.
    { rewrite settle_heap. by rewrite decide_True. }
    split; [by eapply calmer_trans|]. split.
    + intros k Hk. apply elem_of_app in Hk as [Hk|Hk].
      * destruct (Hin k Hk) as (s & k' & Hs & Hks & Hrs).
        exists s, k'. repeat split; [done..|].
        destruct Hc1 as (_ & _ & _ & Hq). by rewrite Hq.
      * apply list_elem_of_singleton in Hk as ->.
        exists l, (testName r). rewrite <- Hm. repeat split; [done| |done].
        symmetry. by apply calmer_key.
    + intros r' l' Hr' Hl'. apply elem_of_app in Hr' as [Hr'|Hr'].
      * destruct Hc1 as (_ & _ & _ & Hq). rewrite Hq; eauto.
      * apply list_elem_of_singleton in Hr' as ->.
        rewrite <- Hm in Hl'. by simplify_eq.
Qed.

Lemma with_running_false_id n : running n = false -> with_running false n = n.
Proof. destruct n; simpl. by intros ->. Qed.

Lemma forceStopped_calmer_any st t : calmer st (forceStopped st t).
Proof.
  destruct (running (heap st t)) eqn:Hr; [by apply forceStopped_calmer|].
  split; [by destruct st|]. split; [by destruct st|]. split.
  - intros l'. rewrite forceStopped_heap. case_decide; [subst|]; by repeat split.
  - intros l' Hl'. rewrite forceStopped_heap.
    case_decide; [subst; by apply with_running_false_id|done].
Qed.

(** The sweep: each selected node stops running and is signalled, in the
    order of the discovered set; results are kept. *)
Lemma sweep_spec (L : list loc) (st : State) :
  let st' := foldl forceStopped st L in
  calmer st st' ∧
  trace st' = trace st ++ (TreeChanged ∘ Some <$> L) ∧
  (∀ l, running (heap st' l) = if decide (l ∈ L) then false else running (heap st l)) ∧
  (∀ l, result (heap st' l) = result (heap st l)).
Proof.
  induction L as [|t L IH] using rev_ind; cbv zeta.
  { split; [apply calmer_refl|]. split; [by rewrite app_nil_r|]. split; [|done].
    intros l. destruct (decide (l ∈ [])) as [Hin|]; [|done].
    by apply not_elem_of_nil in Hin. }
  cbv zeta in IH. rewrite foldl_app. cbn [foldl].
  destruct IH as (Hc & Ht & Hr & Hres).
  split; [eapply calmer_trans; [exact Hc|apply forceStopped_calmer_any]|].
  split.
  { rewrite forceStopped_trace, Ht, fmap_app, app_assoc. done. }
  split.
  - intros l. rewrite forceStopped_heap. case_decide as Htl.
    + subst l. rewrite decide_True; [done|]. apply elem_of_app. right. by left.
    + rewrite Hr. destruct (decide (l ∈ L)) as [Hin|Hnin].
      * rewrite decide_True; [done|]. apply elem_of_app. by left.
      * rewrite decide_False; [done|]. intros Hin. apply elem_of_app in Hin as [?|Hin]; [done|].
        apply list_elem_of_singleton in Hin. congruence.
  - intros l. rewrite forceStopped_heap. case_decide; [subst|]; simpl; apply Hres.
Qed.

Lemma filter_agree {A} (P Q : A -> Prop) `{∀ x, Decision (P x)} `{∀ x, Decision (Q x)}
    (l : list A) :
  (∀ x, x ∈ l -> P x <-> Q x) -> filter P l = filter Q l.
Proof.
  induction l as [|x l IH]; [done|]. intros Hpq.
  rewrite !filter_cons.
  assert (filter P l = filter Q l) as -> by (apply IH; intros; apply Hpq; by right).
  destruct (decide (P x)) as [Hp|Hp], (decide (Q x)) as [Hq|Hq]; try done;
    exfalso; apply (Hpq x) in Hp || apply (Hpq x) in Hq; try done; by left.
Qed.

(** With a consistent index, the nodes the sweep selects are the
    discovered nodes that still run after the loop: none of them has its
    key in [inResults]. *)
Lemma stillRunning_indexed R st :
  indexed st ->
  stillRunning (resultsLoop R st).2 (resultsLoop R st).1
  = filter (fun t => running (heap (resultsLoop R st).1 t) = true) (discoveredTests st).
Proof.
  intros [Hi1 Hi2]. pose proof (resultsLoop_spec R st) as Hspec.
  destruct (resultsLoop R st) as [st1 inR]. simpl.
  destruct Hspec as (Hc & Hin & _). pose proof Hc as (Hd & _ & _ & _).
  unfold stillRunning. rewrite Hd. apply filter_agree.
  intros t Ht. split.
  - intros Hb. apply andb_true_iff in Hb. tauto.
  - intros Hr. apply andb_true_iff. split; [|done].
    apply negb_true_iff, bool_decide_eq_false. intros Hk.
    destruct (Hin _ Hk) as (s & k' & Hs & Hks & Hoff).
    assert (s = t) as ->; [|congruence].
    pose proof (Hi1 _ _ Hs) as Hk'. pose proof (Hi2 _ Ht) as Hlt.
    rewrite (calmer_key _ _ _ Hc) in Hks. rewrite <- Hks, Hk' in Hlt. congruence.
Qed.

Lemma recordResult_calmer acc r : calmer acc.1 (recordResult acc r).1.
Proof.
  destruct acc as [st inR].
  destruct (recordResult_cases st inR r) as [[-> _]|(l & _ & Hr & ->)]; simpl.
  - apply calmer_refl.
  - by apply settle_calmer.
Qed.

Lemma foldl_recordResult_calmer R acc : calmer acc.1 (foldl recordResult acc R).1.
Proof.
  revert acc. induction R as [|r R IH]; intros acc; simpl; [apply calmer_refl|].
  eapply calmer_trans; [apply recordResult_calmer|apply IH].
Qed.

Lemma onTestResult_calmer R st : calmer st (onTestResult R st).
Proof.
  rewrite onTestResult_unfold.
  eapply calmer_trans; [apply (foldl_recordResult_calmer R (st, []))|].
  apply sweep_spec.
Qed.

(** With a consistent index the batch is the loop followed by a sweep
    of the discovered nodes that still run. *)
Lemma onTestResult_indexed R st :
  indexed st ->
  onTestResult R st
  = foldl forceStopped (resultsLoop R st).1
      (filter (fun t => running (heap (resultsLoop R st).1 t) = true)
              (discoveredTests st)).
Proof. intros Hidx. by rewrite onTestResult_unfold, stillRunning_indexed. Qed.

Lemma onTestResult_stops_all R st t :
  indexed st -> t ∈ discoveredTests st ->
  running (heap (onTestResult R st) t) = false.
Proof.
  intros Hidx Ht. rewrite onTestResult_indexed by done.
  pose proof (sweep_spec
    (filter (fun t => running (heap (resultsLoop R st).1 t) = true)
            (discoveredTests st)) (resultsLoop R st).1) as (_ & _ & Hrun & _).
  rewrite Hrun. case_decide as Hin; [done|].
  destruct (running (heap (resultsLoop R st).1 t)) eqn:Hr; [|done].
  exfalso. apply Hin. by apply list_elem_of_filter.
Qed.

(** C2. For a state whose index agrees with the discovered set (keys are
    unique, as a discovery leaves it): a result that, at its turn, leads
    to a running node stops that node, attaches itself as the node's
    result and fires exactly one invalidation for that node, touching no
    other object, and the node ends the batch stopped with that result;
    after the loop, the sweep fires one invalidation for each discovered
    node still running (none of which was settled) and stops it, keeping
    its result; a node that is not running after the loop, settled or
    not, is neither touched nor signalled by the sweep; so no discovered
    node is running when the batch ends. *)
Theorem onTestResult_settles_and_sweeps (R : list TestResult) (st : State) :
  indexed st ->
  let st1 := (resultsLoop R st).1 in
  let st' := onTestResult R st in
  (∀ R1 r R2 l,
     R = R1 ++ r :: R2 ->
     let sa := (resultsLoop R1 st).1 in
     let sb := (resultsLoop (R1 ++ [r]) st).1 in
     discoveredTestsMap st !! testName r = Some l ->
     running (heap sa l) = true ->
     running (heap sb l) = false ∧ result (heap sb l) = Some r ∧
     trace sb = trace sa ++ [TreeChanged (Some l)] ∧
     (∀ l', l' ≠ l -> heap sb l' = heap sa l') ∧
     running (heap st' l) = false ∧ result (heap st' l) = Some r) ∧
  trace st' = trace st1 ++
    (TreeChanged ∘ Some <$>
       filter (fun t => running (heap st1 t) = true) (discoveredTests st)) ∧
  (∀ t, t ∈ discoveredTests st -> running (heap st1 t) = true ->
     running (heap st' t) = false ∧
     result (heap st' t) = result (heap st1 t) ∧
     TreeChanged (Some t) ∈ drop (length (trace st1)) (trace st')) ∧
  (∀ t, running (heap st1 t) = false ->
     heap st' t = heap st1 t ∧
     TreeChanged (Some t) ∉ drop (length (trace st1)) (trace st')) ∧
  (∀ t, t ∈ discoveredTests st -> running (heap st' t) = false).
Proof.
  intros Hidx st1 st'.
  assert (st' = foldl forceStopped st1
            (filter (fun t => running (heap st1 t) = true) (discoveredTests st)))
    as Hst'.
  { subst st' st1. by apply onTestResult_indexed. }
  pose proof (sweep_spec
    (filter (fun t => running (heap st1 t) = true) (discoveredTests st)) st1)
    as Hsweep.
  cbv zeta in Hsweep. rewrite <- Hst' in Hsweep.
  destruct Hsweep as (Hc & Htr & Hrun & Hres).
  split.
  { intros R1 r R2 l HR sa sb Hl Hr.
    assert (sb = settle l r sa) as Hsb.
    { subst sa sb. rewrite resultsLoop_snoc.
      pose proof (foldl_recordResult_calmer R1 (st, [])) as (_ & Hm & _ & _).
      fold (resultsLoop R1 st) in Hm.
      destruct (resultsLoop R1 st) as [sa ia]. cbn [fst snd] in *.
      rewrite <- Hm in Hl.
      destruct (recordResult_cases sa ia r) as [[_ Hdrop]|(l' & Hl' & _ & ->)].
      - rewrite (Hdrop l Hl) in Hr. done.
      - simpl. congruence. }
    assert (heap sb l = with_result (Some r) (with_running false (heap sa l))) as Hobj.
    { rewrite Hsb, settle_heap. by rewrite decide_True. }
    assert (calmer sb st') as Hfin.
    { subst st'. rewrite onTestResult_unfold. fold st1.
      eapply calmer_trans; [|apply sweep_spec].
      subst sb st1. rewrite HR.
      replace (R1 ++ r :: R2) with ((R1 ++ [r]) ++ R2) by (by rewrite <- app_assoc).
      unfold resultsLoop at 2. rewrite foldl_app.
      apply foldl_recordResult_calmer. }
    assert (heap st' l = heap sb l) as Hkeep.
    { destruct Hfin as (_ & _ & _ & Hq). apply Hq. by rewrite Hobj. }
    rewrite Hkeep, Hobj. repeat split; try done.
    - rewrite Hsb. apply settle_trace.
    - intros l' Hne. rewrite Hsb, settle_heap. by rewrite decide_False. }
  split; [done|]. split.
  - intros t Ht Hr.
    assert (t ∈ filter (fun t => running (heap st1 t) = true) (discoveredTests st))
      as Hin by (by apply list_elem_of_filter).
    split; [by rewrite Hrun, decide_True|]. split; [apply Hres|].
    rewrite Htr, drop_app_length. by apply (list_elem_of_fmap_2' _ _ t).
  - split.
    + intros t Hoff. split; [destruct Hc as (_ & _ & _ & Hq); by apply Hq|].
      rewrite Htr, drop_app_length. intros Hin.
      apply list_elem_of_fmap in Hin as (t' & [= <-] & Hin).
      apply list_elem_of_filter in Hin as [Hon _]. congruence.
    + intros t Ht. by apply onTestResult_stops_all.
Qed.

(** A result that finds no node, or a node that is not running, is
    skipped. *)
Lemma recordResult_skip st inResults r :
  (∀ l, discoveredTestsMap st !! testName r = Some l -> running (heap st l) = false) ->
  recordResult (st, inResults) r = (st, inResults).
Proof.
  intros Hskip.
  destruct (recordResult_cases st inResults r) as [[-> _]|(l & Hl & Hr & _)]; [done|].
  rewrite (Hskip l Hl) in Hr. done.
Qed.

Lemma resultsLoop_noop R st :
  (∀ r l, r ∈ R -> discoveredTestsMap st !! testName r = Some l ->
          running (heap st l) = false) ->
  resultsLoop R st = (st, []).
Proof.
  induction R as [|r R IH] using rev_ind; [done|]. intros Hall.
  rewrite resultsLoop_snoc, IH.
  - apply recordResult_skip. intros l. apply Hall, elem_of_app. right. by left.
  - intros r' l Hr'. apply Hall, elem_of_app. by left.
Qed.

(** When no node the batch leads to is running and no discovered node is
    running, the batch does nothing at all. *)
Lemma onTestResult_noop R st :
  (∀ r l, r ∈ R -> discoveredTestsMap st !! testName r = Some l ->
          running (heap st l) = false) ->
  (∀ t, t ∈ discoveredTests st -> running (heap st t) = false) ->
  onTestResult R st = st.
Proof.
  intros Hall Hquiet. rewrite onTestResult_unfold, resultsLoop_noop by done.
  simpl. unfold stillRunning.
  replace (filter _ (discoveredTests st)) with (@nil loc); [done|].
  symmetry. induction (discoveredTests st) as [|t D IH]; [done|].
  rewrite filter_cons, decide_False.
  - apply IH. intros t' Ht'. apply Hquiet. by right.
  - rewrite (Hquiet t) by left. rewrite andb_false_r. done.
Qed.

(** After a batch, in a state whose index agrees with the discovered
    set, no node the batch leads to and no discovered node is running. *)
Lemma onTestResult_leaves_quiet (R : list TestResult) (st : State) :
  indexed st ->
  let st1 := onTestResult R st in
  (∀ r l, r ∈ R -> discoveredTestsMap st1 !! testName r = Some l ->
          running (heap st1 l) = false) ∧
  (∀ t, t ∈ discoveredTests st1 -> running (heap st1 t) = false).
Proof.
  intros Hidx st1. subst st1. split.
  - intros r l Hr Hl.
    pose proof (onTestResult_calmer R st) as (_ & Hm & _ & _). rewrite Hm in Hl.
    pose proof (resultsLoop_spec R st) as Hspec.
    rewrite onTestResult_unfold.
    destruct (resultsLoop R st) as [sa ia]. destruct Hspec as (_ & _ & Hoff).
    pose proof (sweep_spec (stillRunning ia sa) sa) as (_ & _ & Hrun & _).
    cbn [fst snd]. rewrite Hrun. case_decide; [done|]. eauto.
  - intros t Ht.
    pose proof (onTestResult_calmer R st) as (Hd & _ & _ & _). rewrite Hd in Ht.
    by apply onTestResult_stops_all.
Qed.

(** C7, as the code has it. A batch processed in a state in which no
    node it leads to is running and no node of the discovered set is
    running leaves the state as it is: no [running] flag and no result
    changes and nothing is added to the trace. That is the state a first
    pass of the batch leaves when the index agrees with the discovered
    set, so a second pass right after the first changes nothing. *)
Theorem onTestResult_repeated_batch (R : list TestResult) (st : State) :
  (∀ r l, r ∈ R -> discoveredTestsMap st !! testName r = Some l ->
          running (heap st l) = false) ->
  (∀ t, t ∈ discoveredTests st -> running (heap st t) = false) ->
  onTestResult R st = st ∧
  (∀ l, running (heap (onTestResult R st) l) = running (heap st l) ∧
        result (heap (onTestResult R st) l) = result (heap st l)) ∧
  trace (onTestResult R st) = trace st ∧
  (∀ st0, indexed st0 ->
     let st1 := onTestResult R st0 in
     (∀ r l, r ∈ R -> discoveredTestsMap st1 !! testName r = Some l ->
             running (heap st1 l) = false) ∧
     (∀ t, t ∈ discoveredTests st1 -> running (heap st1 t) = false) ∧
     onTestResult R st1 = st1).
Proof.
  intros Hmatched Hquiet.
  assert (onTestResult R st = st) as -> by (by apply onTestResult_noop).
  split; [done|]. split; [done|]. split; [done|].
  intros st0 Hidx st1.
  destruct (onTestResult_leaves_quiet R st0 Hidx) as [H1 H2].
  split; [exact H1|]. split; [exact H2|]. by apply onTestResult_noop.
Qed.

(** C8. A result whose [testName] is not in the index, or leads to a node
    that is not running when the result's turn comes: handling it leaves
    the state (every object, the trace) and [inResults] as they are, and
    the whole batch ends in the same state as the batch without it. *)
Theorem unmatched_result_is_ignored (R1 R2 : list TestResult) (r : TestResult)
    (st : State) :
  let sa := (resultsLoop R1 st).1 in
  let ia := (resultsLoop R1 st).2 in
  (discoveredTestsMap st !! testName r = None ∨
   ∃ l, discoveredTestsMap st !! testName r = Some l ∧ running (heap sa l) = false) ->
  recordResult (sa, ia) r = (sa, ia) ∧
  resultsLoop (R1 ++ [r]) st = resultsLoop R1 st ∧
  onTestResult (R1 ++ r :: R2) st = onTestResult (R1 ++ R2) st.
Proof.
  intros sa ia Hcase.
  assert (recordResult (sa, ia) r = (sa, ia)) as Hskip.
  { apply recordResult_skip. intros l Hl.
    pose proof (foldl_recordResult_calmer R1 (st, [])) as (_ & Hm & _ & _).
    fold (resultsLoop R1 st) in Hm. fold sa in Hm. cbn [fst] in Hm.
    rewrite Hm in Hl. destruct Hcase as [Hnone|(l' & Hl' & Hoff)]; congruence. }
  assert (resultsLoop (R1 ++ [r]) st = resultsLoop R1 st) as Hloop.
  { rewrite resultsLoop_snoc. subst sa ia.
    destruct (resultsLoop R1 st) as [sa ia]. exact Hskip. }
  split; [done|]. split; [done|].
  assert (resultsLoop (R1 ++ r :: R2) st = resultsLoop (R1 ++ R2) st) as Hall.
  { replace (R1 ++ r :: R2) with ((R1 ++ [r]) ++ R2) by (by rewrite <- app_assoc).
    by rewrite (resultsLoop_app (R1 ++ [r]) R2), (resultsLoop_app R1 R2), Hloop. }
  by rewrite !onTestResult_unfold, Hall.
Qed.

(** ** Click disambiguation *)

Lemma clickTreeItem_fields N e st :
  editor st = Some e ->
  let st' := clickTreeItem N st in
  lastClickedNode st' = Some N ∧ lastClickedTime st' = Some (clock st) ∧
  heap st' = heap st ∧ editor st' = editor st ∧ clock st' = clock st ∧
  timers st' = timers st ∧ roots st' = roots st.
Proof.
  intros He. unfold clickTreeItem. rewrite He. cbv zeta.
  destruct (negb _); by destruct st.
Qed.

(** C4, as the code has it. A click on [N] at the time the clock shows,
    with an editor tracked and clock readings that are not 0 (as
    [Date.now()] gives them): the double-click effects (caret to the start of [N], highlight
    off, focus back to the editor) are produced exactly when there is a
    previous click, on a node with the same [start] and [end] as [N],
    less than [doubleClickThreshold] ago; otherwise the single-click
    highlight is produced; either way the last click becomes [N] at the
    current time. Only the spans are compared. *)
Theorem clickTreeItem_disambiguates (N : loc) (e : TextEditor) (st : State) :
  editor st = Some e ->
  (∀ t, lastClickedTime st = Some t -> t ≠ 0) ->
  let st' := clickTreeItem N st in
  (sameSpanRecently N st -> trace st' = trace st ++ doubleClickIntent e N) ∧
  (¬ sameSpanRecently N st -> trace st' = trace st ++ singleClickIntent e N) ∧
  lastClickedNode st' = Some N ∧
  lastClickedTime st' = Some (clock st).
Proof.
  intros He Hnz st'.
  destruct (clickTreeItem_fields N e st He) as (HN & HT & _).
  split; [|split; [|by split]]; subst st'; unfold clickTreeItem; rewrite He; cbv zeta.
  - intros (P & t & HP & Ht & Hs & He' & Hlt).
    rewrite HP, Ht. unfold truthy.
    destruct (Z.eqb_spec t 0) as [->|_]; [by destruct (Hnz 0 Ht)|]. cbn [negb].
    unfold wasRecentlyClicked. rewrite Hs, He', !Z.eqb_refl.
    destruct (Z.ltb_spec (clock st - t) (doubleClickThreshold st)); [|lia].
    cbn [andb negb]. rewrite !trace_emit. destruct st; simpl.
    by rewrite <- !app_assoc.
  - intros Hnot.
    assert (match lastClickedTime st, lastClickedNode st with
            | Some t, Some n =>
                if truthy t
                then wasRecentlyClicked (doubleClickThreshold st) (heap st n) t
                       (heap st N) (clock st)
                else false
            | _, _ => false
            end = false) as ->.
    { destruct (lastClickedTime st) as [t|] eqn:Ht; [|done].
      destruct (lastClickedNode st) as [P|] eqn:HP; [|done].
      destruct (truthy t); [|done].
      destruct (wasRecentlyClicked _ _ _ _ _) eqn:Hw; [|done].
      exfalso. apply Hnot. exists P, t. unfold wasRecentlyClicked in Hw.
      apply andb_true_iff in Hw as [Hspan Hlt].
      apply andb_true_iff in Hspan as [Hs He'].
      repeat split; try done; lia. }
    cbn [negb]. rewrite trace_emit. by destruct st.
Qed.

(** C10. A click while no editor is tracked does nothing: the state,
    and with it the last click and the trace, is the one before; so
    whatever follows runs as if the click had not happened, and the next
    click is compared with the last one made while an editor was
    tracked. *)
Theorem clickTreeItem_without_editor (isRootNode : GinkgoNode -> bool)
    (N : loc) (st : State) :
  editor st = None ->
  clickTreeItem N st = st ∧
  lastClickedNode (clickTreeItem N st) = lastClickedNode st ∧
  lastClickedTime (clickTreeItem N st) = lastClickedTime st ∧
  trace (clickTreeItem N st) = trace st ∧
  (∀ later, run isRootNode later (clickTreeItem N st) = run isRootNode later st) ∧
  (∀ e M, clickTreeItem M (onActiveEditorChanged (Some e) (clickTreeItem N st))
          = clickTreeItem M (onActiveEditorChanged (Some e) st)).
Proof.
  intros He. assert (clickTreeItem N st = st) as ->; [|done].
  unfold clickTreeItem. by rewrite He.
Qed.

(** ** Active editor changes *)

(** C5, as the code has it. A change to a main editor or to no editor:
    the new editor is tracked, the cached outline is dropped and one
    unscoped tree-changed signal is fired; the pending timeouts and the
    remembered timer handle are left as they are, and so are the clicks,
    the discovered set, the index and the objects. A change to an editor
    that is not a main one changes nothing. *)
Theorem onActiveEditorChanged_effect (e : option TextEditor) (st : State) :
  let st' := onActiveEditorChanged e st in
  (mainOrNone e ->
     editor st' = e ∧ roots st' = [] ∧
     trace st' = trace st ++ [TreeChanged None] ∧
     timers st' = timers st ∧
     documentChangedTimer st' = documentChangedTimer st ∧
     lastClickedNode st' = lastClickedNode st ∧
     lastClickedTime st' = lastClickedTime st ∧
     discoveredTests st' = discoveredTests st ∧
     discoveredTestsMap st' = discoveredTestsMap st ∧
     heap st' = heap st) ∧
  (¬ mainOrNone e -> st' = st).
Proof.
  intros st'. subst st'. unfold onActiveEditorChanged, mainOrNone.
  destruct e as [e'|].
  - destruct (isMainEditor e'); cbn [negb].
    + split; [intros _; by destruct st|]. intros Hn. by destruct Hn.
    + split; [intros Hm; discriminate Hm|done].
  - split; [intros _; by destruct st|]. intros Hn. by destruct Hn.
Qed.

(** ** Reading the tree *)

Section Reading.

Variable GO_MODE_language : string.

Lemma getChildren_resume_rejected element err st :
  let '(st', c) := getChildren_resume element (Rejected err) st in
  c = Normal None ∧ roots st' = roots st ∧
  trace st' = trace st ++ parseFailureReport err ∧
  heap st' = heap st ∧ editor st' = editor st ∧ timers st' = timers st.
Proof.
  unfold getChildren_resume. cbn [await]. rewrite !trace_emit.
  destruct st; simpl. by rewrite <- app_assoc.
Qed.

(** A read never ends with an exception, however the parser settles. *)
Lemma getChildren_resume_returns element p st :
  ∃ v, (getChildren_resume element p st).2 = Normal v.
Proof. destruct p; simpl; eauto. Qed.

Lemma getChildren_returns outlineFromDoc element st :
  ∃ v, (getChildren GO_MODE_language outlineFromDoc element st).2 = Normal v.
Proof.
  unfold getChildren.
  destruct (getChildren_begin _ _ _) as [st1 [v|doc]]; [by eexists|].
  apply getChildren_resume_returns.
Qed.

(** C9. A read with an empty cache, on a Go document, whose parse
    fails: the read returns undefined (and not an exception); the cache
    is still empty; a line goes to the output channel and an error
    message offering 'Open Log' is shown, and picking that item shows the
    output channel. The same holds after the suspension in whatever
    state the provider is by then: the read writes no cache. No read
    ends with an exception, whatever the parser does. *)
Theorem getChildren_parser_failure (outlineFromDoc : TextDocument -> Settled)
    (element : option loc) (e : TextEditor) (err : string) (st : State) :
  editor st = Some e ->
  languageId (document e) = GO_MODE_language ->
  roots st = [] ->
  outlineFromDoc (document e) = Rejected err ->
  let read := getChildren GO_MODE_language outlineFromDoc element st in
  read.2 = Normal None ∧
  roots read.1 = [] ∧
  trace read.1 = trace st ++ parseFailureReport err ∧
  trace (onErrorMessageAction (Some "Open Log") read.1)
    = trace st ++ parseFailureReport err ++ [OutputChannelShow] ∧
  (∀ st_later,
     let resumed := getChildren_resume element (Rejected err) st_later in
     resumed.2 = Normal None ∧ roots resumed.1 = roots st_later) ∧
  (∀ outlineFromDoc' element' st0,
     ∃ v, (getChildren GO_MODE_language outlineFromDoc' element' st0).2 = Normal v).
Proof.
  intros He Hlang Hroots Hfail read.
  assert (read = getChildren_resume element (Rejected err) st) as Hread.
  { subst read. unfold getChildren, getChildren_begin. rewrite He.
    rewrite bool_decide_eq_false_2 by (intros Hne; by apply Hne).
    rewrite Hroots. cbn [length Nat.eqb]. by rewrite Hfail. }
  pose proof (getChildren_resume_rejected element err st) as Hres.
  rewrite <- Hread in Hres. destruct read as [st' c]. cbn [fst snd].
  destruct Hres as (-> & Hr & Ht & _).
  split; [done|]. split; [congruence|]. split; [done|]. split.
  { unfold onErrorMessageAction. rewrite bool_decide_eq_true_2 by done.
    by rewrite trace_emit, Ht, <- app_assoc. }
  split.
  - intros st_later.
    pose proof (getChildren_resume_rejected element err st_later) as Hl.
    destruct (getChildren_resume _ _ _) as [s c']. cbv zeta. cbn [fst snd].
    destruct Hl as (? & ? & _). by split.
  - intros. apply getChildren_returns.
Qed.

End Reading.

(** ** The change-detection scheduler *)

Lemma oneTimer_sched st st' : sched st' = sched st -> oneTimer st -> oneTimer st'.
Proof. unfold sched, oneTimer. intros [= -> ->]. done. Qed.

Lemma oneTimer_length st : oneTimer st -> (length (timers st) <= 1)%nat.
Proof. intros [->|(id & due & -> & _)]; simpl; lia. Qed.

Lemma settle_sched l r st : sched (settle l r st) = sched st.
Proof. by destruct st. Qed.

Lemma forceStopped_sched st t : sched (forceStopped st t) = sched st.
Proof. by destruct st. Qed.

Lemma onTestResult_sched R st : sched (onTestResult R st) = sched st.
Proof.
  rewrite onTestResult_unfold.
  assert (sched (resultsLoop R st).1 = sched st) as Hloop.
  { induction R as [|r R IH] using rev_ind; [done|].
    rewrite resultsLoop_snoc. destruct (resultsLoop R st) as [s i].
    destruct (recordResult_cases s i r) as [[-> _]|(l & _ & _ & ->)]; [done|].
    cbn [fst] in *. by rewrite settle_sched. }
  rewrite <- Hloop. generalize (stillRunning (resultsLoop R st).2 (resultsLoop R st).1).
  intros L. induction L as [|t L IH] using rev_ind; [done|].
  by rewrite foldl_app; cbn [foldl]; rewrite forceStopped_sched.
Qed.

Lemma clickTreeItem_sched N st : sched (clickTreeItem N st) = sched st.
Proof.
  unfold clickTreeItem. destruct (editor st); [|done]. cbv zeta.
  destruct (negb _); by destruct st.
Qed.

Lemma onActiveEditorChanged_sched e st : sched (onActiveEditorChanged e st) = sched st.
Proof.
  unfold onActiveEditorChanged. destruct e as [e'|]; [destruct (negb _)|]; by destruct st.
Qed.

Lemma onDocumentSaved_sched doc st : sched (onDocumentSaved doc st) = sched st.
Proof. unfold onDocumentSaved. destruct (negb _); by destruct st. Qed.

(** Such an event leaves exactly one timeout pending, a new one, due one
    delay from now, and fires nothing. *)
Lemma onDocumentChanged_relevant evt st :
  relevant st evt -> oneTimer st ->
  let st' := onDocumentChanged evt st in
  timers st' = [(nextTimer st, clock st + timeoutDelay (updateOnTypeDelay st))] ∧
  documentChangedTimer st' = Some (nextTimer st) ∧
  trace st' = trace st ∧ roots st' = [] ∧
  editor st' = editor st ∧ updateListener st' = updateListener st ∧
  updateOnTypeDelay st' = updateOnTypeDelay st ∧ clock st' = clock st.
Proof.
  intros [Hdoc Hch] Hone. unfold onDocumentChanged. rewrite Hdoc. cbn [negb].
  destruct (contentChanges evt) as [|c cs] eqn:Hc; [done|]. cbn [length Nat.eqb].
  destruct st as [ed ro mp ds rn ln lt dt ul dl th hp ck tms nt tr].
  unfold oneTimer in Hone. cbn in Hone. cbn.
  destruct Hone as [->|(id & due & -> & ->)]; cbn.
  - by destruct dt.
  - destruct (decide (id ≠ id)) as [Hne|_]; [by destruct Hne|done].
Qed.

(** An event that is not relevant is dropped by the handler's guards. *)
Lemma onDocumentChanged_irrelevant evt st :
  ¬ relevant st evt -> onDocumentChanged evt st = st.
Proof.
  intros Hnot. unfold onDocumentChanged.
  destruct (isDocumentForActiveEditor _ _) eqn:Hdoc; [|done]. cbn [negb].
  destruct (contentChanges evt) as [|c cs] eqn:Hc; [done|].
  exfalso. apply Hnot. split; [done|]. by rewrite Hc.
Qed.

Lemma onDocumentChanged_oneTimer evt st :
  oneTimer st -> oneTimer (onDocumentChanged evt st).
Proof.
  intros Hone. destruct (decide (relevant st evt)) as [Hrel|Hnot].
  - destruct (onDocumentChanged_relevant evt st Hrel Hone) as (Ht & Hd & _).
    right. eauto.
  - by rewrite onDocumentChanged_irrelevant.
Qed.

(** Time passing over a single pending timeout. *)
Lemma advance_not_due t id due st :
  timers st = [(id, due)] -> t < due ->
  advance t st = set_clock t st.
Proof.
  intros Ht Hlt. unfold advance. rewrite Ht.
  rewrite !filter_cons, !filter_nil. cbn [snd].
  destruct (decide (due <= t)) as [?|_]; [lia|].
  destruct (decide (¬ due <= t)) as [_|Hn]; [|by destruct Hn; lia].
  cbn [foldl]. rewrite <- Ht. by destruct st.
Qed.

Lemma advance_due t id due st :
  timers st = [(id, due)] -> due <= t ->
  advance t st = set_clock t (fire None (set_timers [] st)).
Proof.
  intros Ht Hle. unfold advance. rewrite Ht.
  rewrite !filter_cons, !filter_nil. cbn [snd].
  destruct (decide (due <= t)) as [_|?]; [|lia].
  destruct (decide (¬ due <= t)) as [Hn|_]; [by destruct Hn|done].
Qed.

Lemma advance_idle t st : timers st = [] -> advance t st = set_clock t st.
Proof.
  intros Ht. unfold advance. rewrite Ht, !filter_nil. cbn [foldl].
  rewrite <- Ht. by destruct st.
Qed.

Lemma advance_oneTimer t st : oneTimer st -> oneTimer (advance t st).
Proof.
  intros [Hnil|(id & due & Ht & Hd)].
  - rewrite advance_idle by done. left. by destruct st.
  - destruct (decide (t < due)).
    + rewrite (advance_not_due t id due) by done. right. exists id, due. by destruct st.
    + rewrite (advance_due t id due) by (done || lia). left. by destruct st.
Qed.

Lemma dispatch_oneTimer isRootNode ev st :
  oneTimer st -> oneTimer (dispatch isRootNode ev st).
Proof.
  intros Hone. destruct ev; cbn [dispatch].
  - eapply oneTimer_sched; [|done]. by destruct st.
  - eapply oneTimer_sched; [|done]. by destruct st.
  - eapply oneTimer_sched; [apply onTestResult_sched|done].
  - eapply oneTimer_sched; [apply onActiveEditorChanged_sched|done].
  - destruct (updateListener st) as [[]|]; [done| |done].
    by apply onDocumentChanged_oneTimer.
  - destruct (updateListener st) as [[]|]; [|done..].
    eapply oneTimer_sched; [apply onDocumentSaved_sched|done].
  - eapply oneTimer_sched; [apply clickTreeItem_sched|done].
Qed.

(** Whatever events arrive, at most one timeout is pending. *)
Lemma run_oneTimer isRootNode evs st :
  oneTimer st -> oneTimer (run isRootNode evs st).
Proof.
  revert st. induction evs as [|[t ev] evs IH]; intros st Hone; [done|].
  cbn [run]. by apply IH, dispatch_oneTimer, advance_oneTimer.
Qed.

(** *** Debounce *)

Lemma lastTime_cons t t' e evs : lastTime t ((t', e) :: evs) = lastTime t' evs.
Proof.
  unfold lastTime. rewrite fmap_cons, last_cons. cbn [fst].
  by destruct (last (fst <$> evs)).
Qed.

Lemma relevant_editor st st' evt :
  editor st' = editor st -> relevant st evt -> relevant st' evt.
Proof. unfold relevant, isDocumentForActiveEditor. by intros ->. Qed.

Lemma armed_event isRootNode d t tr ed s t' evt :
  armed d t tr ed s -> t' < t + d ->
  relevant s evt ->
  armed d t' tr ed (run isRootNode [(t', DocumentChanged evt)] s).
Proof.
  intros ((id & Htm & Hdt) & Htr & Hed & Hul & Hdl) Hlt Hrel.
  cbn [run]. rewrite (advance_not_due t' id (t + d)) by done.
  set (s1 := set_clock t' s).
  assert (updateListener s1 = Some onType) as Hul1 by (by destruct s).
  cbn [dispatch]. rewrite Hul1.
  assert (relevant s1 evt) as Hrel1 by (apply (relevant_editor s); [by destruct s|done]).
  assert (oneTimer s1) as Hone1.
  { right. exists id, (t + d). by destruct s. }
  destruct (onDocumentChanged_relevant evt s1 Hrel1 Hone1)
    as (Ht' & Hd' & Htr' & _ & Hed' & Hul' & Hdl' & _).
  assert (clock s1 = t') as Hck by (by destruct s).
  assert (timeoutDelay (updateOnTypeDelay s1) = d) as Hdl1 by (by destruct s).
  rewrite Hck, Hdl1 in Ht'.
  split; [eauto|]. split; [rewrite Htr'; by destruct s|].
  split; [rewrite Hed'; by destruct s|]. split; congruence.
Qed.

Lemma armed_burst isRootNode d ed tr evs : ∀ t s,
  armed d t tr ed s -> spaced d t evs ->
  (∀ te, te ∈ evs -> relevant s te.2) ->
  armed d (lastTime t evs) tr ed (run isRootNode (typing evs) s).
Proof.
  induction evs as [|[t' e] evs IH]; intros t s Harm Hsp Hrel; [done|].
  destruct Hsp as [[_ Hlt] Hsp]. rewrite lastTime_cons.
  assert (armed d t' tr ed (run isRootNode [(t', DocumentChanged e)] s)) as Harm'.
  { eapply armed_event; [done..|]. apply (Hrel (t', e)). by left. }
  change (run isRootNode (typing ((t', e) :: evs)) s)
    with (run isRootNode (typing evs) (run isRootNode [(t', DocumentChanged e)] s)).
  apply IH; [done..|].
  intros te Hte. apply (relevant_editor s).
  - destruct Harm as (_ & _ & <- & _), Harm' as (_ & _ & Hed' & _). done.
  - apply Hrel. by right.
Qed.

(** Once armed at [t], one signal comes when the clock reaches [t + d],
    and the timeout is gone. *)
Lemma armed_expiry d t tr ed s now :
  armed d t tr ed s ->
  trace (advance now s) = tr ++ (if decide (t + d <= now) then [TreeChanged None] else []) ∧
  timers (advance now s) = (if decide (t + d <= now) then [] else timers s).
Proof.
  intros ((id & Htm & Hdt) & Htr & _). case_decide as Hdue.
  - rewrite (advance_due now id (t + d)) by done.
    destruct s; cbn in *. by subst.
  - rewrite (advance_not_due now id (t + d)) by (done || lia).
    destruct s; cbn in *. subst. by rewrite app_nil_r.
Qed.

Lemma timeoutDelay_in_range (delay : Z) :
  1 <= delay <= TIMEOUT_MAX -> timeoutDelay delay = delay.
Proof.
  intros [Hlo Hhi]. unfold timeoutDelay.
  destruct (Z.leb_spec 1 delay); [|lia].
  destruct (Z.leb_spec delay TIMEOUT_MAX); [done|lia].
Qed.

Lemma onDocumentChanged_no_change evt st :
  contentChanges evt = [] -> onDocumentChanged evt st = st.
Proof.
  intros Hc. unfold onDocumentChanged. rewrite Hc.
  by destruct (negb _).
Qed.

(** C3, as the code has it. On-type updates; [d] is the delay the timer
    runs with, which is [updateOnTypeDelay] when that lies between 1 and
    2147483647 and 1 otherwise. A burst of document-changed events, each
    for the tracked document and each carrying at least one content
    change, the first at [t1] and each later one less than [d] after the
    one before; any timeout pending at the start is the remembered one
    and not yet due at [t1]. Then the burst itself fires nothing and
    leaves exactly one timeout, due [d] after the last event; as time
    passes, nothing is fired before that moment and exactly one unscoped
    tree-changed signal from that moment on; whatever events arrive,
    there is never more than one timeout pending; and a document-changed
    event without a content change leaves any state, its timeout
    included, as it is. *)
Theorem debounce_one_signal (isRootNode : GinkgoNode -> bool) (st : State)
    (t1 : Z) (e1 : TextDocumentChangeEvent)
    (rest : list (Z * TextDocumentChangeEvent)) :
  updateListener st = Some onType ->
  oneTimer st ->
  (∀ tm, tm ∈ timers st -> t1 < tm.2) ->
  (∀ te, te ∈ (t1, e1) :: rest -> relevant st te.2) ->
  spaced (timeoutDelay (updateOnTypeDelay st)) t1 rest ->
  let d := timeoutDelay (updateOnTypeDelay st) in
  let tN := lastTime t1 rest in
  let st_end := run isRootNode (typing ((t1, e1) :: rest)) st in
  (1 <= updateOnTypeDelay st <= TIMEOUT_MAX -> d = updateOnTypeDelay st) ∧
  trace st_end = trace st ∧
  (∃ id, timers st_end = [(id, tN + d)] ∧ documentChangedTimer st_end = Some id) ∧
  (∀ now, trace (advance now st_end)
          = trace st ++ (if decide (tN + d <= now) then [TreeChanged None] else [])) ∧
  (∀ now, tN + d <= now -> timers (advance now st_end) = []) ∧
  (∀ evs, (length (timers (run isRootNode evs st)) <= 1)%nat) ∧
  (∀ evt s, contentChanges evt = [] ->
            dispatch isRootNode (DocumentChanged evt) s = s).
Proof.
  intros Hul Hone Hnotdue Hrel Hsp d tN st_end.
  assert (advance t1 st = set_clock t1 st) as Hadv.
  { destruct Hone as [Hnil|(id & due & Ht & _)].
    - by apply advance_idle.
    - apply (advance_not_due t1 id due); [done|].
      apply (Hnotdue (id, due)). rewrite Ht. by left. }
  assert (armed d t1 (trace st) (editor st)
            (run isRootNode [(t1, DocumentChanged e1)] st)) as Harm.
  { cbn [run]. rewrite Hadv. set (s1 := set_clock t1 st).
    assert (updateListener s1 = Some onType) as Hul1 by (by destruct st).
    cbn [dispatch]. rewrite Hul1.
    assert (relevant s1 e1) as Hrel1.
    { apply (relevant_editor st); [by destruct st|]. apply (Hrel (t1, e1)). by left. }
    assert (oneTimer s1) as Hone1 by (eapply oneTimer_sched; [|exact Hone]; by destruct st).
    destruct (onDocumentChanged_relevant e1 s1 Hrel1 Hone1)
      as (Ht' & Hd' & Htr' & _ & Hed' & Hul' & Hdl' & _).
    assert (clock s1 = t1) as Hck by (by destruct st).
    assert (timeoutDelay (updateOnTypeDelay s1) = d) as Hdl1 by (by destruct st).
    rewrite Hck, Hdl1 in Ht'.
    split; [eauto|]. split; [rewrite Htr'; by destruct st|].
    split; [rewrite Hed'; by destruct st|]. split; congruence. }
  assert (armed d tN (trace st) (editor st) st_end) as Hend.
  { subst st_end tN.
    change (run isRootNode (typing ((t1, e1) :: rest)) st)
      with (run isRootNode (typing rest) (run isRootNode [(t1, DocumentChanged e1)] st)).
    apply armed_burst; [done..|].
    intros te Hte. apply (relevant_editor st).
    - by destruct Harm as (_ & _ & -> & _).
    - apply Hrel. by right. }
  split; [apply timeoutDelay_in_range|].
  split; [by destruct Hend as (_ & -> & _)|].
  split; [by destruct Hend as (? & _)|].
  split; [intros now; by apply (armed_expiry d tN _ (editor st))|].
  split.
  { intros now Hnow.
    destruct (armed_expiry d tN _ _ _ now Hend) as [_ ->]. by rewrite decide_True. }
  split.
  - intros evs. by apply oneTimer_length, run_oneTimer.
  - intros evt s Hc. cbn [dispatch].
    destruct (updateListener s) as [[]|]; [done| |done].
    by apply onDocumentChanged_no_change.
Qed.

(** ** Preparing a run *)

Lemma descendant_preorder h n : ∀ l m,
  height_le h n l = true -> descendant h l m -> m ∈ preorder h n l.
Proof.
  induction n as [|n IH]; intros l m Hh Hd; [done|].
  cbn [height_le preorder] in *. destruct Hd as [l|l c m Hc Hd]; [by left|].
  right. apply list_elem_of_bind. exists c. split; [|done].
  apply IH; [|done].
  apply Is_true_true, forallb_True in Hh.
  rewrite Forall_forall in Hh. by apply Is_true_true, Hh.
Qed.

Lemma sendTestRunStarted_heap n s l :
  heap (sendTestRunStarted n s) l =
  if decide (n = l) then with_running true (heap s n) else heap s l.
Proof.
  unfold sendTestRunStarted, onTestRunStarted, fire.
  rewrite heap_emit, write_running_heap. by rewrite heap_emit.
Qed.

Lemma sendTestRunStarted_trace n s :
  trace (sendTestRunStarted n s) = trace s ++ [TestRunStarted n; TreeChanged (Some n)].
Proof.
  unfold sendTestRunStarted, onTestRunStarted, fire.
  rewrite trace_emit, trace_write_running, trace_emit. by rewrite <- app_assoc.
Qed.

Lemma sendTestRunStarted_discoveredTests n s :
  discoveredTests (sendTestRunStarted n s) = discoveredTests s.
Proof. by destruct s. Qed.

Section FanOut.

(** The state in which the run is prepared: the keys of the discovered
    set are unique and the set is flattened, so it holds the children of
    its nodes. *)
Variable st : State.
Hypothesis unique_keys : NoDup (key ∘ heap st <$> discoveredTests st).
Hypothesis flattened :
  ∀ t c, t ∈ discoveredTests st -> c ∈ nodes (heap st t) -> c ∈ discoveredTests st.

Lemma during_send n s : during st s -> during st (sendTestRunStarted n s).
Proof.
  intros [Hd Hs]. split; [by rewrite sendTestRunStarted_discoveredTests|].
  intros l. rewrite sendTestRunStarted_heap. case_decide; [subst|]; [|done].
  eapply same_shape_trans; [apply Hs|]. by repeat split.
Qed.

(** The filter of [prepareToRunTest] finds the node itself. *)
Lemma matching_key_self s l :
  during st s -> l ∈ discoveredTests st ->
  filter (fun test => key (heap s test) = key (heap s l)) (discoveredTests s) = [l].
Proof.
  intros [Hd Hs] Hl. rewrite Hd.
  assert (∀ x, key (heap s x) = key (heap st x)) as Hk.
  { intros x. by destruct (Hs x) as (-> & _). }
  revert Hl unique_keys. generalize (discoveredTests st) as D.
  induction D as [|x D IH]; intros Hl Hnd; [by apply not_elem_of_nil in Hl|].
  rewrite fmap_cons in Hnd. apply NoDup_cons in Hnd as [Hx Hnd].
  rewrite filter_cons. apply elem_of_cons in Hl as [->|Hl].
  - rewrite decide_True by done. f_equal.
    clear IH. induction D as [|y D IH]; [done|].
    rewrite fmap_cons in Hx, Hnd. apply not_elem_of_cons in Hx as [Hxy Hx].
    apply NoDup_cons in Hnd as [_ Hnd].
    rewrite filter_cons, decide_False; [by apply IH|].
    rewrite !Hk. cbn in Hxy. congruence.
  - rewrite decide_False; [by apply IH|].
    rewrite !Hk. intros Hxl. apply Hx.
    cbn. rewrite Hxl. by apply (list_elem_of_fmap_2 (key ∘ heap st)).
Qed.

Lemma marked_nil s : during st s -> marked st [] s s.
Proof.
  intros Hd. split; [done|]. split; [by rewrite app_nil_r|].
  intros x. case_decide as Hin; [by apply not_elem_of_nil in Hin|done].
Qed.

Lemma marked_app L1 L2 s1 s2 s3 :
  marked st L1 s1 s2 -> marked st L2 s2 s3 -> marked st (L1 ++ L2) s1 s3.
Proof.
  intros (_ & Ht1 & Hr1) (Hd & Ht2 & Hr2). split; [done|]. split.
  - unfold runStartedSignals in *. by rewrite Ht2, Ht1, bind_app, app_assoc.
  - intros x. rewrite Hr2, Hr1.
    destruct (decide (x ∈ L2)), (decide (x ∈ L1)), (decide (x ∈ L1 ++ L2)) as [Hin|Hnin];
      try done; try (apply elem_of_app in Hin as [?|?]; done);
      exfalso; apply Hnin, elem_of_app; auto.
Qed.

Lemma marked_send n s : during st s -> marked st [n] s (sendTestRunStarted n s).
Proof.
  intros Hd. split; [by apply during_send|]. split.
  - by rewrite sendTestRunStarted_trace.
  - intros x. rewrite sendTestRunStarted_heap.
    destruct (decide (n = x)) as [->|Hne].
    + rewrite decide_True by (by left). done.
    + rewrite decide_False; [done|]. intros Hin.
      apply list_elem_of_singleton in Hin. congruence.
Qed.

Lemma forEachM_marked (f : loc -> State -> option State) (sub : loc -> list loc)
    (C : list loc) : ∀ s,
  during st s ->
  (∀ c s0, c ∈ C -> during st s0 -> ∃ s1, f c s0 = Some s1 ∧ marked st (sub c) s0 s1) ->
  ∃ s', forEachM f C s = Some s' ∧ marked st (C ≫= sub) s s'.
Proof.
  induction C as [|c C IH]; intros s Hd Hf.
  { exists s. split; [done|]. by apply marked_nil. }
  destruct (Hf c s) as (s1 & Hs1 & Hm1); [by left|done|].
  destruct (IH s1) as (s' & Hs' & Hm'); [apply Hm1| |].
  { intros c' s0 Hc'. apply Hf. by right. }
  exists s'. cbn [forEachM]. rewrite Hs1. split; [done|].
  rewrite bind_cons. by eapply marked_app.
Qed.

(** With enough fuel for the height of the subtree, the recursion ends
    and has marked st the subtree, parents before children. *)
Lemma prepareToRunTest_marked n : ∀ l s,
  during st s -> l ∈ discoveredTests st -> height_le (heap st) n l = true ->
  ∃ s', prepareToRunTest n l s = Some s' ∧ marked st (preorder (heap st) n l) s s'.
Proof.
  induction n as [|n IH]; intros l s Hd Hl Hh; [done|].
  cbn [prepareToRunTest]. rewrite matching_key_self by done.
  cbn [forEachM].
  set (s1 := sendTestRunStarted l s).
  assert (during st s1) as Hd1 by (by apply during_send).
  assert (nodes (heap s1 l) = nodes (heap st l)) as Hn.
  { destruct Hd1 as [_ Hs]. by destruct (Hs l) as (_ & _ & _ & <-). }
  rewrite Hn.
  assert (∃ s', forEachM (prepareToRunTest n) (nodes (heap st l)) s1 = Some s' ∧
                marked st (nodes (heap st l) ≫= preorder (heap st) n) s1 s')
    as (s' & Hs' & Hm').
  { apply forEachM_marked; [done|]. intros c s0 Hc Hd0. apply IH; [done| |].
    - by apply (flattened l).
    - cbn [height_le] in Hh. apply Is_true_true, forallb_True in Hh.
      rewrite Forall_forall in Hh. by apply Is_true_true, Hh. }
  exists s'. split.
  - destruct (nodes (heap st l)) as [|c C] eqn:Hc; cbn [length Nat.ltb Nat.leb].
    + cbn [forEachM] in Hs'. by rewrite Hs'.
    + by rewrite Hs'.
  - cbn [preorder]. apply (marked_app [l] _ s s1 s'); [|done].
    by apply marked_send.
Qed.

End FanOut.

Lemma during_refl st : during st st.
Proof. split; [done|]. intros l. apply same_shape_refl. Qed.

Lemma elem_of_runStartedSignals m L :
  m ∈ L ->
  TestRunStarted m ∈ runStartedSignals L ∧ TreeChanged (Some m) ∈ runStartedSignals L.
Proof.
  intros Hm. unfold runStartedSignals.
  split; apply list_elem_of_bind; exists m; (split; [|done]).
  - by left.
  - right. by left.
Qed.

(** C6. In a state whose discovered set has unique keys and holds the
    children of its nodes, for a node [N] of the set whose subtree has at
    most [n] levels: [prepareToRunTest], given fuel [n], ends; it has
    sent one run-started signal per node of the subtree of [N], parents
    before children, each followed by the invalidation of that node; and
    [N] and every descendant of [N] is running afterwards and has had its
    run-started signal. *)
Theorem prepareToRunTest_fans_out (st : State) (N : loc) (n : nat) :
  NoDup (key ∘ heap st <$> discoveredTests st) ->
  (∀ t c, t ∈ discoveredTests st -> c ∈ nodes (heap st t) -> c ∈ discoveredTests st) ->
  N ∈ discoveredTests st ->
  height_le (heap st) n N = true ->
  ∃ st',
    prepareToRunTest n N st = Some st' ∧
    trace st' = trace st ++ runStartedSignals (preorder (heap st) n N) ∧
    (∀ m, descendant (heap st) N m ->
          running (heap st' m) = true ∧
          TestRunStarted m ∈ drop (length (trace st)) (trace st') ∧
          TreeChanged (Some m) ∈ drop (length (trace st)) (trace st')).
Proof.
  intros Hnd Hflat HN Hh.
  destruct (prepareToRunTest_marked st Hnd Hflat n N st (during_refl st) HN Hh)
    as (st' & Hrun & _ & Htr & Hmark).
  exists st'. split; [done|]. split; [done|].
  intros m Hm. apply (descendant_preorder _ n) in Hm; [|done].
  split; [by rewrite Hmark, decide_True|].
  rewrite Htr, drop_app_length. by apply elem_of_runStartedSignals.
Qed.

(** ** The properties on the running example *)

Module Witnesses.

Import Example.

(** The discovered sets of the example have unique keys. *)
Lemma keys_unique (h : Heap) (D : list loc) :
  bool_decide (NoDup (key ∘ h <$> D)) = true -> NoDup (key ∘ h <$> D).
Proof. apply bool_decide_eq_true_1. Defined.

Lemma s1_indexed : indexed s1.
Proof. apply onDicoveredTest_indexed, keys_unique. reflexivity. Defined.

Lemma r1_indexed : indexed r1.
Proof. apply onDicoveredTest_indexed, keys_unique. reflexivity. Defined.

Local Ltac in_list := apply list_elem_of_In; vm_compute; tauto.

(** After [root, containerX] is replaced by the whole outline, [specA]
    is found under its key and the root is the first node. *)
Lemma onDicoveredTest_replaces_index_witness :
  let st2 := onDicoveredTest isRoot [0; 1; 2; 3]%nat
               (run isRoot [] (onDicoveredTest isRoot [0; 1]%nat s0)) in
  discoveredTestsMap st2 !! "X A" = Some 2%nat ∧ discoveredTests st2 = [0; 1; 2; 3]%nat.
Proof.
  intros st2.
  destruct (onDicoveredTest_replaces_index isRoot s0 [0; 1]%nat [0; 1; 2; 3]%nat [])
    as (_ & _ & _ & Hfound & _ & Hset & _).
  split; [|exact Hset].
  apply (Hfound (keys_unique (heap st2) [0; 1; 2; 3]%nat eq_refl) 2%nat). in_list.
Defined.

(** [specA] passes while [containerX], [specA] and [specB] run: [specB]
    is swept. *)
Lemma onTestResult_settles_and_sweeps_witness :
  running (heap (onTestResult [passedA] r1) 3%nat) = false.
Proof.
  destruct (onTestResult_settles_and_sweeps [passedA] r1 r1_indexed)
    as (_ & _ & _ & _ & Hall).
  apply Hall. in_list.
Defined.

(** The batch [passedA] again, after it has stopped everything. *)
Lemma onTestResult_repeated_batch_witness :
  onTestResult [passedA] (onTestResult [passedA] r1) = onTestResult [passedA] r1.
Proof.
  destruct (onTestResult_repeated_batch [passedA] (onTestResult [passedA] r1))
    as (Heq & _).
  - intros r l Hr Hl. apply list_elem_of_singleton in Hr as ->.
    vm_compute in Hl. injection Hl as <-. reflexivity.
  - intros t Ht. vm_compute in Ht.
    repeat (apply elem_of_cons in Ht as [->|Ht]; [reflexivity|]).
    by apply not_elem_of_nil in Ht.
  - exact Heq.
Defined.

Lemma unmatched_result_is_ignored_witness :
  onTestResult ([passedA] ++ unknown :: []) r1 = onTestResult ([passedA] ++ []) r1.
Proof.
  destruct (unmatched_result_is_ignored [passedA] [] unknown r1) as (_ & _ & Heq).
  - left. reflexivity.
  - exact Heq.
Defined.

(** Three changes at 1000, 1100 and 1250 with a delay of 300. *)
Lemma debounce_one_signal_witness :
  let st_end := run isRoot (typing [(1000, change); (1100, change); (1250, change)]) s1 in
  trace (advance 1549 st_end) = trace s1 ∧
  trace (advance 1550 st_end) = trace s1 ++ [TreeChanged None].
Proof.
  intros st_end.
  destruct (debounce_one_signal isRoot s1 1000 change [(1100, change); (1250, change)])
    as (_ & _ & _ & Hfire & _).
  - reflexivity.
  - left. reflexivity.
  - intros tm Htm. vm_compute in Htm. by apply not_elem_of_nil in Htm.
  - intros te Hte.
    repeat (apply elem_of_cons in Hte as [->|Hte]; [by split|]).
    by apply not_elem_of_nil in Hte.
  - vm_compute. repeat split; discriminate.
  - split.
    + exact (Hfire 1549).
    + exact (Hfire 1550).
Defined.

(** [specA] clicked at 1000 and again at 1300, threshold 400. *)
Lemma clickTreeItem_disambiguates_witness :
  let st := advance 1300 (clickTreeItem 2%nat s1) in
  trace (clickTreeItem 2%nat st) = trace st ++ doubleClickIntent ed 2%nat ∧
  lastClickedTime (clickTreeItem 2%nat st) = Some 1300.
Proof.
  intros st.
  destruct (clickTreeItem_disambiguates 2%nat ed st) as (Hdouble & _ & _ & Htime).
  - reflexivity.
  - intros t Ht. vm_compute in Ht. injection Ht as <-. discriminate.
  - split; [|exact Htime]. apply Hdouble.
    exists 2%nat, 1000. repeat split.
Defined.

Lemma clickTreeItem_without_editor_witness :
  let st := onActiveEditorChanged None (clickTreeItem 2%nat s1) in
  clickTreeItem 2%nat st = st.
Proof.
  intros st.
  destruct (clickTreeItem_without_editor isRoot 2%nat st) as (Heq & _).
  - reflexivity.
  - exact Heq.
Defined.

Lemma onActiveEditorChanged_effect_witness :
  let st := onDocumentChanged change s1 in
  timers (onActiveEditorChanged (Some ed) st) = timers st ∧
  roots (onActiveEditorChanged (Some ed) st) = [].
Proof.
  intros st.
  destruct (onActiveEditorChanged_effect (Some ed) st) as (Hmain & _).
  destruct Hmain as (_ & Hroots & _ & Htimers & _); [reflexivity|].
  split; [exact Htimers|exact Hroots].
Defined.

Lemma getChildren_parser_failure_witness :
  (getChildren "go" (fun _ => Rejected "exit status 1") None s1).2 = Normal None.
Proof.
  destruct (getChildren_parser_failure "go" (fun _ => Rejected "exit status 1")
              None ed "exit status 1" s1) as (Hret & _);
    [reflexivity..|exact Hret].
Defined.

(** Preparing [containerX] marks it, [specA] and [specB]. *)
Lemma prepareToRunTest_fans_out_witness :
  ∃ st', prepareToRunTest 2 1%nat s1 = Some st' ∧
         running (heap st' 3%nat) = true.
Proof.
  destruct (prepareToRunTest_fans_out s1 1%nat 2) as (st' & Hrun & _ & Hdesc).
  - apply keys_unique. reflexivity.
  - intros t c Ht Hc.
    repeat (apply elem_of_cons in Ht as [->|Ht];
            [vm_compute in Hc;
             repeat (apply elem_of_cons in Hc as [->|Hc]; [in_list|]);
             by apply not_elem_of_nil in Hc|]).
    by apply not_elem_of_nil in Ht.
  - in_list.
  - reflexivity.
  - exists st'. split; [exact Hrun|].
    apply Hdesc. apply (descendant_child _ 1%nat 3%nat); [in_list|].
    apply descendant_self.
Defined.

End Witnesses.

Module Counterexamples.

Import Example.

(** C3 as stated, without the content-change guard. A document-changed
    event for the tracked document that carries no content change arms
    no timeout, so no signal ever follows it; and when such an event
    follows a real change, the signal comes one delay after the real
    change (at 1300), not one delay after the last event (1500). *)
Lemma debounce_empty_change_counterexample :
  let alone := run isRoot (typing [(1000, noChange)]) s1 in
  let after := run isRoot (typing [(1000, change); (1200, noChange)]) s1 in
  updateListener s1 = Some onType ∧
  updateOnTypeDelay s1 = 300 ∧
  isDocumentForActiveEditor (evt_document noChange) s1 = true ∧
  timers alone = [] ∧
  (∀ now, trace (advance now alone) = []) ∧
  trace (advance 1300 after) = [TreeChanged None].
Proof.
  intros alone after.
  split; [reflexivity|]. split; [reflexivity|]. split; [reflexivity|].
  split; [reflexivity|]. split; [|reflexivity].
  intros now. by rewrite advance_idle.
Qed.

(** C4 as stated, without the editor guard. [specA] is clicked at 1000,
    the editor goes away, and [specA] is clicked again at 1100, within
    the threshold of 400: no intent is produced and the last click stays
    the one of 1000. *)
Lemma clickTreeItem_guard_counterexample :
  let st := advance 1100 (onActiveEditorChanged None (clickTreeItem 2%nat s1)) in
  let st' := clickTreeItem 2%nat st in
  lastClickedNode st = Some 2%nat ∧ lastClickedTime st = Some 1000 ∧
  clock st = 1100 ∧ doubleClickThreshold st = 400 ∧
  trace st' = trace st ∧
  lastClickedTime st' = Some 1000 ∧ lastClickedTime st' ≠ Some (clock st).
Proof. repeat split; try reflexivity. discriminate. Qed.

(** C7 as stated. The batch [passedA] has been processed; then a run of
    [specB] starts; then the same batch comes again. The node it matches,
    [specA], is not running, yet the sweep stops [specB] and fires its
    invalidation. *)
Lemma repeated_batch_sweeps_counterexample :
  let a1 := onTestResult [passedA] r1 in
  let a2 := onTestRunStarted 3%nat a1 in
  let a3 := onTestResult [passedA] a2 in
  discoveredTestsMap a2 !! testName passedA = Some 2%nat ∧
  running (heap a2 2%nat) = false ∧
  running (heap a2 3%nat) = true ∧
  running (heap a3 3%nat) = false ∧
  trace a3 = trace a2 ++ [TreeChanged (Some 3%nat)].
Proof. repeat split; reflexivity. Qed.

(** C5 as stated. A change arms the timeout for 1300; the active editor
    then changes to a main editor: the timeout is still pending, and at
    1300 it fires a second tree-changed signal. *)
Lemma onActiveEditorChanged_timer_counterexample :
  let st := onDocumentChanged change s1 in
  let st' := onActiveEditorChanged (Some ed) st in
  isMainEditor ed = true ∧
  timers st = [(0%nat, 1300)] ∧
  timers st' = [(0%nat, 1300)] ∧
  documentChangedTimer st' = Some 0%nat ∧
  timers (onActiveEditorChanged None st) = [(0%nat, 1300)] ∧
  trace st' = [TreeChanged None] ∧
  trace (advance 1300 st') = [TreeChanged None; TreeChanged None].
Proof. repeat split; reflexivity. Qed.

End Counterexamples.

(** ** Why the index must agree with the discovered set *)

Module DuplicateKeys.

Import Example.

(** The index leads to the second twin; a result for the key settles
    it, and the sweep passes over the first one, whose key is in
    [inResults]: it is still running after the batch. *)
Example shadowed_twin_keeps_running :
  let st' := onTestResult [mkTestResult "X A" true None] d1 in
  discoveredTestsMap d1 !! "X A" = Some 1%nat ∧
  running (heap st' 1%nat) = false ∧
  running (heap st' 0%nat) = true ∧
  trace st' = [TreeChanged (Some 1%nat)].
Proof. repeat split; reflexivity. Qed.

End DuplicateKeys.

(** * Further properties of the provider *)

(** ** Reads and the outline cache *)

Section Cache.

Variable GO_MODE_language : string.

Lemma getChildren_begin_empty element e st :
  editor st = Some e -> languageId (document e) = GO_MODE_language ->
  roots st = [] ->
  getChildren_begin GO_MODE_language element st = (st, Awaiting (document e)).
Proof.
  intros He Hl Hr. unfold getChildren_begin. rewrite He.
  rewrite bool_decide_eq_false_2 by (intros Hne; by apply Hne).
  by rewrite Hr.
Qed.

Lemma getChildren_begin_cached element e st :
  editor st = Some e -> languageId (document e) = GO_MODE_language ->
  roots st ≠ [] ->
  getChildren_begin GO_MODE_language element st = (st, Returned (childrenOf element st)).
Proof.
  intros He Hl Hr. unfold getChildren_begin. rewrite He.
  rewrite bool_decide_eq_false_2 by (intros Hne; by apply Hne).
  destruct (roots st); [done|]. done.
Qed.

(** A read with an empty cache whose parse succeeds stores the nested
    outline and returns it, adding nothing to the trace. If the outline
    is not empty, the reads that follow are answered from the cache, for
    any parser and without a change of state; if it is empty, the cache
    counts as empty again and the next read asks the parser anew. *)
Theorem getChildren_populates_cache (outlineFromDoc : TextDocument -> Settled)
    (e : TextEditor) (o : GinkgoOutline) (st : State) :
  editor st = Some e ->
  languageId (document e) = GO_MODE_language ->
  roots st = [] ->
  outlineFromDoc (document e) = Resolved o ->
  let read := getChildren GO_MODE_language outlineFromDoc None st in
  read.2 = Normal (Some (nested o)) ∧
  roots read.1 = nested o ∧
  trace read.1 = trace st ∧
  heap read.1 = heap st ∧
  (nested o ≠ [] ->
   ∀ outlineFromDoc' element,
     getChildren GO_MODE_language outlineFromDoc' element read.1
     = (read.1, Normal (childrenOf element read.1))) ∧
  (nested o = [] ->
   ∀ element,
     getChildren_begin GO_MODE_language element read.1
     = (read.1, Awaiting (document e))).
Proof.
  intros He Hl Hr Ho read.
  assert (read = (set_roots (nested o) st, Normal (Some (nested o)))) as Hread.
  { subst read. unfold getChildren. rewrite (getChildren_begin_empty None e) by done.
    rewrite Ho. unfold getChildren_resume. cbn [await childrenOf]. by destruct st. }
  rewrite Hread. cbn [fst snd].
  assert (editor (set_roots (nested o) st) = Some e) as He' by (by destruct st).
  assert (roots (set_roots (nested o) st) = nested o) as Hr' by (by destruct st).
  split; [done|]. split; [done|]. split; [by destruct st|]. split; [by destruct st|].
  split.
  - intros Hne parse' element. unfold getChildren.
    rewrite (getChildren_begin_cached element e); [done..|]. by rewrite Hr'.
  - intros Hnil element. apply getChildren_begin_empty; [done..|]. by rewrite Hr'.
Qed.

(** With a filled cache a read is answered from it: the roots, or the
    children of the given node as the store has them; the parser is not
    asked and the state stays. *)
Theorem getChildren_cached (outlineFromDoc : TextDocument -> Settled)
    (element : option loc) (e : TextEditor) (st : State) :
  editor st = Some e ->
  languageId (document e) = GO_MODE_language ->
  roots st ≠ [] ->
  getChildren GO_MODE_language outlineFromDoc element st
  = (st, Normal (match element with
                 | None => Some (roots st)
                 | Some n => Some (nodes (heap st n))
                 end)) ∧
  ∀ outlineFromDoc',
    getChildren GO_MODE_language outlineFromDoc' element st
    = getChildren GO_MODE_language outlineFromDoc element st.
Proof.
  intros He Hl Hr. unfold getChildren.
  rewrite (getChildren_begin_cached element e) by done. by destruct element.
Qed.

(** Without an editor, or on a document that is not Go, a read returns
    undefined without asking the parser and leaves the cache as it is,
    filled or not. Without an editor the state is untouched; on a
    document that is not Go exactly one line, naming the document, is
    written to the output channel, and nothing else happens: no error
    message is shown. *)
Theorem getChildren_without_go_document (outlineFromDoc : TextDocument -> Settled)
    (element : option loc) (st : State) :
  (editor st = None ∨
   ∃ e, editor st = Some e ∧ languageId (document e) ≠ GO_MODE_language) ->
  let read := getChildren GO_MODE_language outlineFromDoc element st in
  read.2 = Normal None ∧
  roots read.1 = roots st ∧
  heap read.1 = heap st ∧
  provider_fields read.1 = provider_fields st ∧
  trace read.1
  = trace st ++
    match editor st with
    | None => []
    | Some e =>
        [AppendLine ("Did not populate outline view: document " ++
                     dquote ++ uri (document e) ++ dquote ++
                     " language is not Go.")]
    end ∧
  (∀ message items, ShowErrorMessage message items ∉ trace st ->
                    ShowErrorMessage message items ∉ trace read.1) ∧
  ∀ outlineFromDoc',
    getChildren GO_MODE_language outlineFromDoc' element st = read.
Proof.
  intros Hcase read. subst read. unfold getChildren, getChildren_begin.
  destruct Hcase as [Hnone|(e & He & Hlang)].
  - rewrite Hnone. cbn [fst snd]. rewrite app_nil_r. repeat split; done.
  - rewrite He, bool_decide_eq_true_2 by done. cbn [fst snd].
    split; [done|]. split; [by destruct st|]. split; [by destruct st|].
    split; [by destruct st|]. split; [by rewrite trace_emit|]. split; [|done].
    intros message items Hnot Hin. rewrite trace_emit in Hin.
    apply elem_of_app in Hin as [Hin|Hin]; [done|].
    apply list_elem_of_singleton in Hin. discriminate Hin.
Qed.


End Cache.

(** ** Update modes *)

Lemma advance_fields t st :
  editor (advance t st) = editor st ∧ roots (advance t st) = roots st ∧
  heap (advance t st) = heap st ∧ clock (advance t st) = t ∧
  lastClickedNode (advance t st) = lastClickedNode st ∧
  lastClickedTime (advance t st) = lastClickedTime st ∧
  doubleClickThreshold (advance t st) = doubleClickThreshold st ∧
  updateListener (advance t st) = updateListener st ∧
  updateOnTypeDelay (advance t st) = updateOnTypeDelay st ∧
  discoveredTests (advance t st) = discoveredTests st ∧
  discoveredTestsMap (advance t st) = discoveredTestsMap st.
Proof.
  unfold advance.
  generalize (filter (fun tm => snd tm <= t) (timers st)) as due.
  generalize (filter (fun tm => ¬ snd tm <= t) (timers st)) as pending.
  intros pending due.
  assert (∀ s, let s' := foldl (fun st _ => fire None st) s due in
               (editor s', roots s', heap s', lastClickedNode s', lastClickedTime s',
                doubleClickThreshold s', updateListener s', updateOnTypeDelay s',
                discoveredTests s', discoveredTestsMap s')
               = (editor s, roots s, heap s, lastClickedNode s, lastClickedTime s,
                  doubleClickThreshold s, updateListener s, updateOnTypeDelay s,
                  discoveredTests s, discoveredTestsMap s)) as Hfold.
  { induction due as [|x due IH] using rev_ind; intros s; [done|].
    cbv zeta. rewrite foldl_app. cbn [foldl].
    specialize (IH s). cbv zeta in IH. destruct (foldl _ s due). cbn in *. done. }
  specialize (Hfold (set_timers pending st)). cbv zeta in Hfold.
  destruct (foldl _ _ due). destruct st. cbn in *.
  by injection Hfold as -> -> -> -> -> -> -> -> -> ->.
Qed.

(** With the on-save listener subscribed, document-changed events, with
    or without content changes, for any document and at any times, fire
    nothing, keep the cache and arm no timeout; a save of the tracked
    document drops the cache and fires one full refresh at once; a save
    of another document does nothing. With the on-type listener, saves
    are not heard at all. *)
Theorem onSave_mode_hears_only_saves (isRootNode : GinkgoNode -> bool)
    (st : State) (evs : list (Z * TextDocumentChangeEvent)) (doc : TextDocument) :
  timers st = [] ->
  (updateListener st = Some onSave ->
     trace (run isRootNode (typing evs) st) = trace st ∧
     roots (run isRootNode (typing evs) st) = roots st ∧
     timers (run isRootNode (typing evs) st) = [] ∧
     (isDocumentForActiveEditor doc st = true ->
        trace (dispatch isRootNode (DocumentSaved doc) st) = trace st ++ [TreeChanged None] ∧
        roots (dispatch isRootNode (DocumentSaved doc) st) = []) ∧
     (isDocumentForActiveEditor doc st = false ->
        dispatch isRootNode (DocumentSaved doc) st = st)) ∧
  (updateListener st = Some onType ->
     dispatch isRootNode (DocumentSaved doc) st = st).
Proof.
  intros Htm. split; [|by intros Hul; cbn [dispatch]; rewrite Hul].
  intros Hul. split; [|split; [|split; [|split]]].
  1-3: revert st Htm Hul; induction evs as [|[t e] evs IH]; intros st Htm Hul; [done|];
    cbn [typing fmap list_fmap run fst snd dispatch];
    rewrite (advance_idle t st Htm);
    assert (updateListener (set_clock t st) = Some onSave) as Hul' by (by destruct st);
    rewrite Hul';
    assert (timers (set_clock t st) = []) as Htm' by (by destruct st);
    pose proof (IH (set_clock t st) Htm' Hul') as IH';
    unfold typing in IH'; rewrite IH'; by destruct st.
  - intros Hdoc. cbn [dispatch]. rewrite Hul. unfold onDocumentSaved. rewrite Hdoc.
    cbn [negb]. unfold fire. rewrite trace_emit. by destruct st.
  - intros Hdoc. cbn [dispatch]. rewrite Hul. unfold onDocumentSaved. by rewrite Hdoc.
Qed.

(** ** Debounce over any spacing *)

Lemma armed_event_due isRootNode d t tr ed s t' evt :
  armed d t tr ed s -> t + d <= t' ->
  relevant s evt ->
  armed d t' (tr ++ [TreeChanged None]) ed (run isRootNode [(t', DocumentChanged evt)] s).
Proof.
  intros ((id & Htm & Hdt) & Htr & Hed & Hul & Hdl) Hle Hrel.
  cbn [run]. rewrite (advance_due t' id (t + d)) by done.
  set (s1 := set_clock t' (fire None (set_timers [] s))).
  assert (updateListener s1 = Some onType) as Hul1 by (by destruct s).
  cbn [dispatch]. rewrite Hul1.
  assert (relevant s1 evt) as Hrel1 by (apply (relevant_editor s); [by destruct s|done]).
  assert (oneTimer s1) as Hone1 by (left; by destruct s).
  destruct (onDocumentChanged_relevant evt s1 Hrel1 Hone1)
    as (Ht' & Hd' & Htr' & _ & Hed' & Hul' & Hdl' & _).
  assert (clock s1 = t') as Hck by (by destruct s).
  assert (timeoutDelay (updateOnTypeDelay s1) = d) as Hdl1 by (by destruct s).
  rewrite Hck, Hdl1 in Ht'.
  split; [eauto|]. split.
  { rewrite Htr'. subst s1. destruct s; cbn in *. by subst. }
  split; [rewrite Hed'; by destruct s|]. split; congruence.
Qed.

Lemma armed_any_burst isRootNode d ed evs : ∀ t tr s,
  armed d t tr ed s ->
  (∀ te, te ∈ evs -> relevant s te.2) ->
  armed d (lastTime t evs) (tr ++ replicate (expiries d t evs) (TreeChanged None)) ed
        (run isRootNode (typing evs) s).
Proof.
  induction evs as [|[t' e] evs IH]; intros t tr s Harm Hrel.
  { cbn [expiries replicate]. by rewrite app_nil_r. }
  rewrite lastTime_cons. cbn [expiries].
  change (run isRootNode (typing ((t', e) :: evs)) s)
    with (run isRootNode (typing evs) (run isRootNode [(t', DocumentChanged e)] s)).
  assert (relevant s e) as Hrele by (apply (Hrel (t', e)); by left).
  assert (∀ s', editor s' = ed -> ∀ te, te ∈ evs -> relevant s' te.2) as Hrel'.
  { intros s' Hed' te Hte. apply (relevant_editor s).
    - destruct Harm as (_ & _ & <- & _). done.
    - apply Hrel. by right. }
  case_decide as Hdue.
  - pose proof (armed_event_due isRootNode d t tr ed s t' e Harm Hdue Hrele) as Harm'.
    cbn [Nat.add replicate]. rewrite (cons_middle _ tr), app_assoc.
    apply IH; [done|]. apply Hrel'. by destruct Harm' as (_ & _ & -> & _).
  - assert (t' < t + d) as Hlt by lia.
    pose proof (armed_event isRootNode d t tr ed s t' e Harm Hlt Hrele) as Harm'.
    cbn [Nat.add]. apply IH; [done|]. apply Hrel'. by destruct Harm' as (_ & _ & -> & _).
Qed.

Lemma timeoutDelay_positive (delay : Z) : 1 <= timeoutDelay delay <= TIMEOUT_MAX.
Proof.
  unfold timeoutDelay, TIMEOUT_MAX.
  destruct (Z.leb_spec 1 delay); cbn [andb]; [|lia].
  destruct (Z.leb_spec delay 2147483647); lia.
Qed.

(** On-type updates, from a state without a pending timeout; [d] is the
    delay the timer runs with ([updateOnTypeDelay] when that lies between
    1 and 2147483647, and 1 otherwise, so never less than 1). For any
    run of document-changed events that are for the tracked document and
    carry a content change, at whatever times, the number of full-refresh
    signals once the clock has passed the last deadline is one more than
    the number of events that arrive at or after the deadline of the
    event before them; before that deadline it is that number. Nothing
    else is added to the trace. *)
Theorem debounce_signal_count (isRootNode : GinkgoNode -> bool) (st : State)
    (t1 : Z) (e1 : TextDocumentChangeEvent)
    (rest : list (Z * TextDocumentChangeEvent)) (now : Z) :
  updateListener st = Some onType ->
  timers st = [] ->
  (∀ te, te ∈ (t1, e1) :: rest -> relevant st te.2) ->
  let d := timeoutDelay (updateOnTypeDelay st) in
  let st_end := run isRootNode (typing ((t1, e1) :: rest)) st in
  trace (advance now st_end)
  = trace st ++
    replicate (expiries d t1 rest +
               (if decide (lastTime t1 rest + d <= now) then 1 else 0))
              (TreeChanged None) ∧
  1 <= d <= TIMEOUT_MAX ∧
  (1 <= updateOnTypeDelay st <= TIMEOUT_MAX -> d = updateOnTypeDelay st).
Proof.
  intros Hul Htm Hrel d st_end.
  split; [|split; [apply timeoutDelay_positive|apply timeoutDelay_in_range]].
  assert (armed d t1 (trace st) (editor st)
            (run isRootNode [(t1, DocumentChanged e1)] st)) as Harm.
  { cbn [run]. rewrite (advance_idle t1 st Htm). set (s1 := set_clock t1 st).
    assert (updateListener s1 = Some onType) as Hul1 by (by destruct st).
    cbn [dispatch]. rewrite Hul1.
    assert (relevant s1 e1) as Hrel1.
    { apply (relevant_editor st); [by destruct st|]. apply (Hrel (t1, e1)). by left. }
    assert (oneTimer s1) as Hone1 by (left; by destruct st).
    destruct (onDocumentChanged_relevant e1 s1 Hrel1 Hone1)
      as (Ht' & Hd' & Htr' & _ & Hed' & Hul' & Hdl' & _).
    assert (clock s1 = t1) as Hck by (by destruct st).
    assert (timeoutDelay (updateOnTypeDelay s1) = d) as Hdl1 by (by destruct st).
    rewrite Hck, Hdl1 in Ht'.
    split; [eauto|]. split; [rewrite Htr'; by destruct st|].
    split; [rewrite Hed'; by destruct st|]. split; congruence. }
  assert (armed d (lastTime t1 rest)
            (trace st ++ replicate (expiries d t1 rest) (TreeChanged None))
            (editor st) st_end) as Hend.
  { subst st_end.
    change (run isRootNode (typing ((t1, e1) :: rest)) st)
      with (run isRootNode (typing rest) (run isRootNode [(t1, DocumentChanged e1)] st)).
    apply armed_any_burst; [done|].
    intros te Hte. apply (relevant_editor st).
    - by destruct Harm as (_ & _ & -> & _).
    - apply Hrel. by right. }
  destruct (armed_expiry d _ _ _ _ now Hend) as [-> _].
  rewrite <- app_assoc. f_equal. case_decide.
  - by rewrite replicate_add.
  - by rewrite Nat.add_0_r, app_nil_r.
Qed.

(** ** More on clicks *)

Lemma clickTreeItem_classified N e st :
  editor st = Some e ->
  (∀ t, lastClickedTime st = Some t -> t ≠ 0) ->
  (sameSpanRecently N st ->
   trace (clickTreeItem N st) = trace st ++ doubleClickIntent e N) ∧
  (¬ sameSpanRecently N st ->
   trace (clickTreeItem N st) = trace st ++ singleClickIntent e N).
Proof.
  intros He Hnz.
  assert (∀ b : bool,
            match lastClickedTime st, lastClickedNode st with
            | Some t, Some n =>
                if truthy t
                then wasRecentlyClicked (doubleClickThreshold st) (heap st n) t
                       (heap st N) (clock st)
                else false
            | _, _ => false
            end = b ->
            trace (clickTreeItem N st)
            = trace st ++ (if b then doubleClickIntent e N else singleClickIntent e N))
    as Hby.
  { intros b Hb. unfold clickTreeItem. rewrite He. cbv zeta. rewrite Hb.
    destruct b; cbn [negb].
    - rewrite !trace_emit. destruct st; simpl. by rewrite <- !app_assoc.
    - rewrite trace_emit. by destruct st. }
  split.
  - intros (P & t & HP & Ht & Hs & He' & Hlt). apply (Hby true).
    rewrite Ht, HP. unfold truthy.
    destruct (Z.eqb_spec t 0) as [->|_]; [by destruct (Hnz 0 Ht)|]. cbn [negb].
    unfold wasRecentlyClicked. rewrite Hs, He', !Z.eqb_refl.
    by destruct (Z.ltb_spec (clock st - t) (doubleClickThreshold st)); [|lia].
  - intros Hnot. apply (Hby false).
    destruct (lastClickedTime st) as [t|] eqn:Ht; [|done].
    destruct (lastClickedNode st) as [P|] eqn:HP; [|done].
    destruct (truthy t); [|done].
    destruct (wasRecentlyClicked _ _ _ _ _) eqn:Hw; [|done].
    exfalso. apply Hnot. exists P, t. unfold wasRecentlyClicked in Hw.
    apply andb_true_iff in Hw as [Hspan Hlt].
    apply andb_true_iff in Hspan as [Hs He'].
    repeat split; try done; lia.
Qed.

(** How a click is classified depends on the click before it only: after
    a click on [N], single or double, at a time that is not 0, a click
    on [M] at time [T'] is a double click exactly when [M] has the span
    of [N] and [T'] is less than the threshold after the click on [N].
    So a third quick click on the same node is a double click again. *)
Theorem click_after_click (N M : loc) (e : TextEditor) (T' : Z) (st : State) :
  editor st = Some e ->
  clock st ≠ 0 ->
  let s1 := advance T' (clickTreeItem N st) in
  let again := start (heap st N) = start (heap st M) ∧
               end_ (heap st N) = end_ (heap st M) ∧
               T' - clock st < doubleClickThreshold st in
  (again -> trace (clickTreeItem M s1) = trace s1 ++ doubleClickIntent e M) ∧
  (¬ again -> trace (clickTreeItem M s1) = trace s1 ++ singleClickIntent e M) ∧
  lastClickedNode (clickTreeItem M s1) = Some M ∧
  lastClickedTime (clickTreeItem M s1) = Some T'.
Proof.
  intros He Hnz s1 again.
  destruct (clickTreeItem_fields N e st He) as (HN & HT & Hh & He1 & _ & _ & _).
  assert (doubleClickThreshold (clickTreeItem N st) = doubleClickThreshold st) as Hth.
  { unfold clickTreeItem. rewrite He. cbv zeta. destruct (negb _); by destruct st. }
  destruct (advance_fields T' (clickTreeItem N st))
    as (Hed & _ & Hhp & Hck & Hln & Hlt & Hdt & _).
  fold s1 in Hed, Hhp, Hck, Hln, Hlt, Hdt.
  assert (editor s1 = Some e) as He2 by congruence.
  assert (sameSpanRecently M s1 <-> again) as Hiff.
  { unfold sameSpanRecently, again. rewrite Hln, Hlt, HN, HT, Hhp, Hh, Hck, Hdt, Hth.
    split.
    - intros (P & t & [= <-] & [= <-] & ? & ? & ?). done.
    - intros (? & ? & ?). exists N, (clock st). done. }
  assert (∀ t, lastClickedTime s1 = Some t -> t ≠ 0) as Hnz1.
  { intros t. rewrite Hlt, HT. by intros [= <-]. }
  destruct (clickTreeItem_classified M e s1 He2 Hnz1) as [Hdbl Hsgl].
  destruct (clickTreeItem_fields M e s1 He2) as (HM & HTM & _).
  split; [|split; [|split]].
  - intros Ha. apply Hdbl. by apply Hiff.
  - intros Ha. apply Hsgl. by rewrite Hiff.
  - done.
  - by rewrite HTM, Hck.
Qed.

(** With a threshold that is not positive, as [setDoubleClickThreshold]
    leaves it for any value that is not positive, and with the previous
    click not after the current time, every click is a single click. *)
Theorem nonpositive_threshold_never_double (N : loc) (e : TextEditor) (st : State) :
  editor st = Some e ->
  doubleClickThreshold st <= 0 ->
  (∀ t, lastClickedTime st = Some t -> t <= clock st) ->
  trace (clickTreeItem N st) = trace st ++ singleClickIntent e N ∧
  ∀ x, x <= 0 ->
    trace (clickTreeItem N (setDoubleClickThreshold x st))
    = trace st ++ singleClickIntent e N.
Proof.
  assert (∀ s, editor s = Some e -> doubleClickThreshold s <= 0 ->
               (∀ t, lastClickedTime s = Some t -> t <= clock s) ->
               trace (clickTreeItem N s) = trace s ++ singleClickIntent e N) as Hgen.
  { intros s He Hth Hpast. unfold clickTreeItem. rewrite He. cbv zeta.
    assert (match lastClickedTime s, lastClickedNode s with
            | Some t, Some n =>
                if truthy t
                then wasRecentlyClicked (doubleClickThreshold s) (heap s n) t
                       (heap s N) (clock s)
                else false
            | _, _ => false
            end = false) as ->.
    { destruct (lastClickedTime s) as [t|] eqn:Ht; [|done].
      destruct (lastClickedNode s); [|done]. destruct (truthy t); [|done].
      unfold wasRecentlyClicked. pose proof (Hpast t eq_refl).
      destruct (Z.ltb_spec (clock s - t) (doubleClickThreshold s)); [lia|].
      by rewrite andb_false_r. }
    cbn [negb]. rewrite trace_emit. by destruct s. }
  intros He Hth Hpast. split; [by apply Hgen|].
  intros x Hx.
  replace (trace st) with (trace (setDoubleClickThreshold x st)) by (by destruct st).
  apply Hgen.
  - by destruct st.
  - unfold setDoubleClickThreshold. destruct st; cbn. lia.
  - intros t Ht. replace (clock (setDoubleClickThreshold x st)) with (clock st)
      by (by destruct st).
    apply Hpast. by destruct st.
Qed.

(** ** What a batch of results leaves alone *)

Lemma routed_calmer st s l : calmer st s -> routed s l <-> routed st l.
Proof. intros (Hd & Hm & _). unfold routed. by rewrite Hd, Hm. Qed.

Lemma reconciled_refl R st : reconciled R st st.
Proof.
  split; [done|]. split; [done|]. split; [|by left].
  exists []. split; [by rewrite app_nil_r|].
  intros eff Heff. by apply not_elem_of_nil in Heff.
Qed.

Lemma settle_fields l r st : provider_fields (settle l r st) = provider_fields st.
Proof. by destruct st. Qed.

Lemma forceStopped_fields st t :
  provider_fields (forceStopped st t) = provider_fields st.
Proof. by destruct st. Qed.

Lemma reconciled_settle R st s l r :
  calmer st s -> reconciled R st s ->
  r ∈ R -> discoveredTestsMap s !! testName r = Some l ->
  running (heap s l) = true ->
  reconciled R st (settle l r s).
Proof.
  intros Hc (Hf & Hun & (log & Hlog & Hall) & Hres) Hr Hl Hon.
  pose proof Hc as (_ & Hm & _ & _).
  assert (routed st l) as Hrt by (left; exists (testName r); by rewrite <- Hm).
  split; [by rewrite settle_fields|]. split; [|split].
  - intros l' Hl'. rewrite settle_heap. case_decide; [by subst|by apply Hun].
  - exists (log ++ [TreeChanged (Some l)]). split.
    { by rewrite settle_trace, Hlog, app_assoc. }
    intros eff Heff. apply elem_of_app in Heff as [Heff|Heff].
    + destruct (Hall eff Heff) as (l' & -> & ? & ? & Hoff).
      exists l'. repeat split; try done.
      rewrite settle_heap. case_decide; [subst; congruence|done].
    + apply list_elem_of_singleton in Heff as ->. exists l.
      repeat split; [done|by eapply calmer_running|].
      rewrite settle_heap. by rewrite decide_True.
  - intros l'. rewrite settle_heap. case_decide; [subst l'|apply Hres].
    right. exists r. rewrite <- Hm. done.
Qed.

Lemma reconciled_forceStopped R st s t :
  calmer st s -> reconciled R st s ->
  routed st t -> running (heap st t) = true ->
  reconciled R st (forceStopped s t).
Proof.
  intros Hc (Hf & Hun & (log & Hlog & Hall) & Hres) Hrt Hon.
  split; [by rewrite forceStopped_fields|]. split; [|split].
  - intros l' Hl'. rewrite forceStopped_heap. case_decide; [by subst|by apply Hun].
  - exists (log ++ [TreeChanged (Some t)]). split.
    { by rewrite forceStopped_trace, Hlog, app_assoc. }
    intros eff Heff. apply elem_of_app in Heff as [Heff|Heff].
    + destruct (Hall eff Heff) as (l' & -> & ? & ? & Hoff).
      exists l'. repeat split; try done.
      rewrite forceStopped_heap. case_decide; [done|done].
    + apply list_elem_of_singleton in Heff as ->. exists t.
      repeat split; [done..|].
      rewrite forceStopped_heap. by rewrite decide_True.
  - intros l'. rewrite forceStopped_heap. case_decide; [subst l'|apply Hres].
    apply Hres.
Qed.

Lemma resultsLoop_reconciled R R1 st :
  (∀ r, r ∈ R1 -> r ∈ R) -> reconciled R st (resultsLoop R1 st).1.
Proof.
  induction R1 as [|r R1 IH] using rev_ind; intros Hsub; [apply reconciled_refl|].
  rewrite resultsLoop_snoc.
  pose proof (foldl_recordResult_calmer R1 (st, [])) as Hc.
  fold (resultsLoop R1 st) in Hc. cbn [fst] in Hc.
  assert (reconciled R st (resultsLoop R1 st).1) as IH'.
  { apply IH. intros r' Hr'. apply Hsub, elem_of_app. by left. }
  destruct (resultsLoop R1 st) as [s i]. cbn [fst] in *.
  destruct (recordResult_cases s i r) as [[-> _]|(l & Hl & Hon & ->)]; [done|].
  cbn [fst]. apply reconciled_settle; try done.
  apply Hsub, elem_of_app. right. by left.
Qed.

Lemma sweep_reconciled R st s L :
  calmer st s -> reconciled R st s ->
  (∀ t, t ∈ L -> routed st t ∧ running (heap st t) = true) ->
  reconciled R st (foldl forceStopped s L).
Proof.
  intros Hc Hrec. induction L as [|t L IH] using rev_ind; intros HL; [done|].
  rewrite foldl_app. cbn [foldl].
  destruct (HL t) as [Hrt Hon]; [apply elem_of_app; right; by left|].
  apply reconciled_forceStopped; try done.
  - eapply calmer_trans; [exact Hc|apply sweep_spec].
  - apply IH. intros t' Ht'. apply HL, elem_of_app. by left.
Qed.

Lemma onTestResult_reconciled R st : reconciled R st (onTestResult R st).
Proof.
  rewrite onTestResult_unfold.
  pose proof (foldl_recordResult_calmer R (st, [])) as Hc.
  fold (resultsLoop R st) in Hc. cbn [fst] in Hc.
  apply sweep_reconciled; [done|by apply resultsLoop_reconciled|].
  intros t Ht. unfold stillRunning in Ht.
  apply list_elem_of_filter in Ht as [Hon Ht].
  apply andb_true_iff in Hon as [_ Hon]. pose proof Hc as (Hd & _).
  split; [right; by rewrite <- Hd|]. by eapply calmer_running.
Qed.

Lemma sweep_untouched (L : list loc) (st : State) (l : loc) :
  l ∉ L -> heap (foldl forceStopped st L) l = heap st l.
Proof.
  induction L as [|t L IH] using rev_ind; intros Hl; [done|].
  rewrite foldl_app. cbn [foldl]. rewrite forceStopped_heap.
  rewrite decide_False; [apply IH|]; intros ?; apply Hl, elem_of_app.
  - by left.
  - right. subst. by left.
Qed.

(** For any batch and any state, with or without unique keys: a batch
    only ever stops nodes. It leaves the provider's own fields (editor,
    cache, index, discovered set, clicks, timers) as they are; it never
    sets [running]; an object that is not running, or that neither the
    index nor the discovered set leads to, is untouched; keys, spans and
    children stay; the trace gains only invalidations of single nodes
    that were running and are stopped, never a full refresh; and a
    result that changes is one of the batch. *)
Theorem onTestResult_only_stops (R : list TestResult) (st : State) :
  let st' := onTestResult R st in
  provider_fields st' = provider_fields st ∧
  (∀ l, running (heap st' l) = true -> running (heap st l) = true) ∧
  (∀ l, running (heap st l) = false -> heap st' l = heap st l) ∧
  (∀ l, ¬ routed st l -> heap st' l = heap st l) ∧
  (∀ l, same_shape (heap st l) (heap st' l)) ∧
  (∃ log, trace st' = trace st ++ log ∧
          ∀ eff, eff ∈ log ->
                 ∃ l, eff = TreeChanged (Some l) ∧ routed st l ∧
                      running (heap st l) = true ∧ running (heap st' l) = false) ∧
  (∀ l, result (heap st' l) = result (heap st l) ∨
        ∃ r, r ∈ R ∧ discoveredTestsMap st !! testName r = Some l ∧
             result (heap st' l) = Some r).
Proof.
  intros st'. subst st'.
  pose proof (onTestResult_calmer R st) as Hc.
  destruct (onTestResult_reconciled R st) as (Hf & Hun & Hlog & Hres).
  pose proof Hc as (_ & _ & Hshape & Hoff).
  split; [exact Hf|]. split; [intros l; by apply calmer_running|].
  split; [exact Hoff|]. split; [exact Hun|]. split; [exact Hshape|].
  split; [exact Hlog|exact Hres].
Qed.

(** An empty batch stops everything: each discovered node that is
    running is stopped and signalled once per place it has in the
    discovered set, in that order; results are kept; nothing else
    changes. *)
Theorem onTestResult_empty_batch_stops_all (st : State) :
  let st' := onTestResult [] st in
  trace st' = trace st ++
    (TreeChanged ∘ Some <$>
       filter (fun t => running (heap st t) = true) (discoveredTests st)) ∧
  (∀ t, t ∈ discoveredTests st -> running (heap st' t) = false) ∧
  (∀ l, result (heap st' l) = result (heap st l)) ∧
  (∀ l, l ∉ discoveredTests st -> heap st' l = heap st l).
Proof.
  intros st'. subst st'. rewrite onTestResult_unfold. cbn [resultsLoop foldl fst snd].
  assert (stillRunning [] st
          = filter (fun t => running (heap st t) = true) (discoveredTests st)) as ->.
  { unfold stillRunning. apply filter_agree. intros t _. split.
    - intros Hb. apply andb_true_iff in Hb. tauto.
    - intros Hr. apply andb_true_iff. split; [|done].
      apply negb_true_iff, bool_decide_eq_false, not_elem_of_nil. }
  destruct (sweep_spec
    (filter (fun t => running (heap st t) = true) (discoveredTests st)) st)
    as (Hc & Htr & Hrun & Hres).
  split; [done|]. split; [|split; [done|]].
  - intros t Ht. rewrite Hrun. case_decide as Hin; [done|].
    destruct (running (heap st t)) eqn:Hr; [|done].
    exfalso. apply Hin. by apply list_elem_of_filter.
  - intros l Hl. apply sweep_untouched.
    intros Hin. apply list_elem_of_filter in Hin as [_ ?]. done.
Qed.

(** ** Discovery and the batches after it *)

Lemma onTestResults_frame batches : ∀ st,
  let st' := onTestResults batches st in
  provider_fields st' = provider_fields st ∧
  ∀ l, ¬ routed st l -> heap st' l = heap st l.
Proof.
  induction batches as [|R batches IH] using rev_ind; intros st; [done|].
  cbv zeta. unfold onTestResults in *. rewrite foldl_app. cbn [foldl].
  destruct (IH st) as [Hf Hun]. set (s := foldl _ st batches) in *.
  destruct (onTestResult_reconciled R s) as (Hf' & Hun' & _).
  split; [congruence|].
  intros l Hl. rewrite Hun'; [by apply Hun|].
  unfold routed in *.
  assert (discoveredTestsMap s = discoveredTestsMap st ∧
          discoveredTests s = discoveredTests st) as [-> ->]; [|done].
  unfold provider_fields in Hf. by simplify_eq.
Qed.

(** After a discovery, no number of result batches touches an object
    that is not in the discovered set: whatever was discovered before
    and is not rediscovered keeps its [running] flag and its result for
    good. *)
Theorem stale_nodes_are_never_touched (isRootNode : GinkgoNode -> bool)
    (D : list loc) (batches : list (list TestResult)) (st : State) (l : loc) :
  l ∉ D ->
  heap (onTestResults batches (onDicoveredTest isRootNode D st)) l = heap st l.
Proof.
  intros Hl.
  destruct (onDicoveredTest_fields isRootNode D st) as (Hh & _ & Hd & Hm & _).
  destruct (onTestResults_frame batches (onDicoveredTest isRootNode D st)) as [_ Hun].
  rewrite Hun, Hh; [done|].
  intros [(k & Hk)|Hin].
  - rewrite Hm in Hk. by apply buildIndex_sound in Hk as [? _].
  - by rewrite Hd in Hin.
Qed.

(** A discovery itself fires nothing and writes no object, so flags and
    results survive it; and after the discovery of an empty set every
    batch is without any effect. *)
Theorem empty_discovery_disconnects_results (isRootNode : GinkgoNode -> bool)
    (D : list loc) (R : list TestResult) (st : State) :
  trace (onDicoveredTest isRootNode D st) = trace st ∧
  heap (onDicoveredTest isRootNode D st) = heap st ∧
  roots (onDicoveredTest isRootNode D st) = roots st ∧
  rootNode (onDicoveredTest isRootNode [] st) = None ∧
  onTestResult R (onDicoveredTest isRootNode [] st) = onDicoveredTest isRootNode [] st.
Proof.
  split; [by destruct st|]. split; [by destruct st|]. split; [by destruct st|].
  split; [by destruct st|].
  destruct (onDicoveredTest_fields isRootNode [] st) as (_ & _ & Hd & Hm & _).
  apply onTestResult_noop.
  - intros r l _. rewrite Hm. cbn. by rewrite lookup_empty.
  - intros t. rewrite Hd. intros Ht. by apply not_elem_of_nil in Ht.
Qed.

(** ** A run from start to result *)

Lemma with_result_running_roundtrip r n :
  running n = false ->
  with_result r (with_running false (with_running true n)) = with_result r n.
Proof. destruct n; cbn. by intros ->. Qed.

Lemma filter_none {A} (P : A -> Prop) `{∀ x, Decision (P x)} (l : list A) :
  (∀ x, x ∈ l -> ¬ P x) -> filter P l = [].
Proof.
  induction l as [|x l IH]; intros Hl; [done|].
  rewrite filter_cons, decide_False by (apply Hl; by left).
  apply IH. intros y Hy. apply Hl. by right.
Qed.

(** In a quiet state whose index agrees with the discovered set, a
    run-started event for a discovered node [N] followed by a batch with
    one result under the key of [N]: the result is attached to [N], which
    is not running afterwards, every other object is as before, and the
    view has been told about [N] twice and about nothing else. *)
Theorem run_started_then_result (N : loc) (r : TestResult) (st : State) :
  indexed st ->
  N ∈ discoveredTests st ->
  testName r = key (heap st N) ->
  (∀ t, t ∈ discoveredTests st -> running (heap st t) = false) ->
  let st' := onTestResult [r] (onTestRunStarted N st) in
  heap st' N = with_result (Some r) (heap st N) ∧
  (∀ l, l ≠ N -> heap st' l = heap st l) ∧
  trace st' = trace st ++ [TreeChanged (Some N); TreeChanged (Some N)] ∧
  provider_fields st' = provider_fields st.
Proof.
  intros [Hi1 Hi2] HN Hname Hquiet st'.
  set (s1 := onTestRunStarted N st).
  assert (∀ l, heap s1 l = if decide (N = l) then with_running true (heap st N)
                           else heap st l) as Hh1.
  { intros l. unfold s1, onTestRunStarted, fire. by rewrite heap_emit, write_running_heap. }
  assert (trace s1 = trace st ++ [TreeChanged (Some N)]) as Ht1.
  { unfold s1, onTestRunStarted, fire. by rewrite trace_emit, trace_write_running. }
  assert (discoveredTestsMap s1 = discoveredTestsMap st ∧
          discoveredTests s1 = discoveredTests st ∧
          provider_fields s1 = provider_fields st) as (Hm1 & Hd1 & Hf1)
    by (by destruct st).
  assert (resultsLoop [r] s1 = (settle N r s1, [key (heap st N)])) as Hloop.
  { unfold resultsLoop. cbn [foldl].
    destruct (recordResult_cases s1 [] r) as [[_ Hdrop]|(l & Hl & _ & ->)].
    - exfalso. specialize (Hdrop N). rewrite Hm1, Hname, (Hi2 N HN) in Hdrop.
      specialize (Hdrop eq_refl). rewrite Hh1, decide_True in Hdrop by done. done.
    - rewrite Hm1, Hname, (Hi2 N HN) in Hl. injection Hl as <-.
      cbn [app]. rewrite Hh1, decide_True by done. done. }
  assert (stillRunning [key (heap st N)] (settle N r s1) = []) as Hnone.
  { unfold stillRunning. apply filter_none. intros t Ht Hb.
    apply andb_true_iff in Hb as [_ Hon].
    rewrite settle_heap in Hon. case_decide as HNt; [done|].
    rewrite Hh1, decide_False in Hon by done.
    rewrite Hquiet in Hon; [done|].
    assert (discoveredTests (settle N r s1) = discoveredTests st) as <-
      by (rewrite <- Hd1; by destruct s1).
    done. }
  assert (st' = settle N r s1) as ->.
  { subst st'. fold s1. rewrite onTestResult_unfold, Hloop. cbn [fst snd].
    by rewrite Hnone. }
  split; [|split; [|split]].
  - rewrite settle_heap, decide_True by done. rewrite Hh1, decide_True by done.
    apply with_result_running_roundtrip, Hquiet, HN.
  - intros l Hne. rewrite settle_heap, decide_False by done.
    rewrite Hh1. by rewrite decide_False.
  - by rewrite settle_trace, Ht1, <- app_assoc.
  - by rewrite settle_fields.
Qed.

(** ** What preparing a run leaves alone *)

Lemma only_marks_refl st : only_marks st st.
Proof.
  split; [done|]. exists []. split; [by rewrite app_nil_r|]. split.
  - intros l Hl. by apply not_elem_of_nil in Hl.
  - intros l. case_decide as Hin; [by apply not_elem_of_nil in Hin|done].
Qed.

Lemma with_running_twice b n : with_running b (with_running b n) = with_running b n.
Proof. by destruct n. Qed.

Lemma only_marks_trans st1 st2 st3 :
  only_marks st1 st2 -> only_marks st2 st3 -> only_marks st1 st3.
Proof.
  intros (Hf1 & L1 & Ht1 & Hd1 & Hh1) (Hf2 & L2 & Ht2 & Hd2 & Hh2).
  split; [congruence|]. exists (L1 ++ L2). split; [|split].
  - unfold runStartedSignals in *. by rewrite Ht2, Ht1, bind_app, app_assoc.
  - intros l Hl. apply elem_of_app in Hl as [Hl|Hl]; [by apply Hd1|].
    assert (discoveredTests st2 = discoveredTests st1) as <-
      by (unfold provider_fields in Hf1; by simplify_eq).
    by apply Hd2.
  - intros l. rewrite Hh2, Hh1.
    destruct (decide (l ∈ L1)), (decide (l ∈ L2)), (decide (l ∈ L1 ++ L2)) as [Hin|Hnin];
      try done; try (by rewrite with_running_twice);
      try (exfalso; apply Hnin, elem_of_app; by auto).
    apply elem_of_app in Hin as [?|?]; done.
Qed.

Lemma only_marks_send n st :
  n ∈ discoveredTests st -> only_marks st (sendTestRunStarted n st).
Proof.
  intros Hn. split; [by destruct st|]. exists [n]. split; [|split].
  - by rewrite sendTestRunStarted_trace.
  - intros l Hl. apply list_elem_of_singleton in Hl. by subst.
  - intros l. rewrite sendTestRunStarted_heap.
    destruct (decide (n = l)) as [->|Hne].
    + by rewrite decide_True by (by left).
    + rewrite decide_False; [done|]. intros Hin.
      apply list_elem_of_singleton in Hin. congruence.
Qed.

Lemma only_marks_discoveredTests st st' :
  only_marks st st' -> discoveredTests st' = discoveredTests st.
Proof. intros (Hf & _). unfold provider_fields in Hf. by simplify_eq. Qed.

Lemma forEachM_only_marks {A} (f : A -> State -> option State) (D : list loc)
    (l : list A) :
  (∀ x s s', x ∈ l -> discoveredTests s = D -> f x s = Some s' -> only_marks s s') ->
  ∀ s s', discoveredTests s = D -> forEachM f l s = Some s' -> only_marks s s'.
Proof.
  induction l as [|x l IH]; intros Hf s s' HD Hrun.
  { cbn in Hrun. injection Hrun as <-. apply only_marks_refl. }
  cbn [forEachM] in Hrun. destruct (f x s) as [s1|] eqn:Hx; [|done].
  assert (only_marks s s1) as H1 by (apply (Hf x s s1); [by left|done..]).
  eapply only_marks_trans; [exact H1|].
  apply IH; [| |done].
  - intros y s0 s0' Hy. apply Hf. by right.
  - by rewrite (only_marks_discoveredTests _ _ H1).
Qed.

Lemma prepareToRunTest_only_marks_rel fuel : ∀ node st st',
  prepareToRunTest fuel node st = Some st' -> only_marks st st'.
Proof.
  induction fuel as [|fuel IH]; intros node st st' Hrun; [done|].
  cbn [prepareToRunTest] in Hrun.
  eapply (forEachM_only_marks _ (discoveredTests st)); [|done|exact Hrun].
  intros x s s1 Hx HD Hstep. cbv beta zeta in Hstep.
  apply list_elem_of_filter in Hx as [_ Hx].
  assert (only_marks s (sendTestRunStarted x s)) as Hsend
    by (apply only_marks_send; by rewrite HD).
  destruct (0 <? length (nodes (heap (sendTestRunStarted x s) x)))%nat.
  - eapply only_marks_trans; [exact Hsend|].
    eapply (forEachM_only_marks _ (discoveredTests (sendTestRunStarted x s)));
      [|done|exact Hstep].
    intros c s0 s0' _ _. apply IH.
  - injection Hstep as <-. exact Hsend.
Qed.

Lemma with_running_true_id n : running n = true -> with_running true n = n.
Proof. destruct n; simpl. by intros ->. Qed.

(** Whenever [prepareToRunTest] ends, for any node, fuel and state: the
    run-started signals went to nodes of the discovered set only, each
    followed by the invalidation of that node; these nodes are running;
    no result, no other field of any object and none of the provider's
    own fields has changed. *)
Theorem prepareToRunTest_only_marks (fuel : nat) (node : loc) (st st' : State) :
  prepareToRunTest fuel node st = Some st' ->
  provider_fields st' = provider_fields st ∧
  ∃ L, trace st' = trace st ++ runStartedSignals L ∧
       (∀ l, l ∈ L -> l ∈ discoveredTests st ∧ running (heap st' l) = true) ∧
       (∀ l, l ∉ L -> heap st' l = heap st l) ∧
       (∀ l, result (heap st' l) = result (heap st l) ∧
             same_shape (heap st l) (heap st' l) ∧
             (running (heap st l) = true -> running (heap st' l) = true)).
Proof.
  intros Hrun.
  destruct (prepareToRunTest_only_marks_rel fuel node st st' Hrun)
    as (Hf & L & Ht & Hd & Hh).
  split; [done|]. exists L. split; [done|]. split; [|split].
  - intros l Hl. split; [by apply Hd|]. by rewrite Hh, decide_True.
  - intros l Hl. by rewrite Hh, decide_False.
  - intros l. rewrite Hh. case_decide; by repeat split.
Qed.

(** [prepareToRunTest] looks at its argument's key only: two nodes with
    the same key give the same outcome, whether or not the argument is
    itself in the discovered set; and for a key that no discovered node
    carries (as before the first discovery) nothing is sent and nothing
    changes. *)
Theorem prepareToRunTest_matches_by_key (fuel : nat) (N N' : loc) (st : State) :
  (key (heap st N) = key (heap st N') ->
   prepareToRunTest fuel N st = prepareToRunTest fuel N' st) ∧
  ((∀ t, t ∈ discoveredTests st -> key (heap st t) ≠ key (heap st N)) ->
   prepareToRunTest (S fuel) N st = Some st).
Proof.
  split.
  - intros Hk. destruct fuel as [|fuel]; [done|].
    cbn [prepareToRunTest]. by rewrite Hk.
  - intros Hnone. cbn [prepareToRunTest].
    rewrite filter_none; [done|]. intros t Ht. by apply Hnone.
Qed.

Lemma preorder_descendant h n : ∀ l m, m ∈ preorder h n l -> descendant h l m.
Proof.
  induction n as [|n IH]; intros l m Hm; [by apply not_elem_of_nil in Hm|].
  cbn [preorder] in Hm. apply elem_of_cons in Hm as [->|Hm]; [constructor|].
  apply list_elem_of_bind in Hm as (c & Hm & Hc).
  eapply descendant_child; [exact Hc|]. by apply IH.
Qed.

(** In a state whose discovered set has unique keys and holds the
    children of its nodes, preparing a run of a discovered node [N] with
    fuel for the height of its subtree changes the objects of the subtree
    of [N] by setting [running], and no other object at all: a node that
    is not [N] or below it is as before. *)
Theorem prepareToRunTest_marks_exactly_subtree (st : State) (N : loc) (n : nat) :
  NoDup (key ∘ heap st <$> discoveredTests st) ->
  (∀ t c, t ∈ discoveredTests st -> c ∈ nodes (heap st t) -> c ∈ discoveredTests st) ->
  N ∈ discoveredTests st ->
  height_le (heap st) n N = true ->
  ∃ st',
    prepareToRunTest n N st = Some st' ∧
    (∀ m, descendant (heap st) N m -> heap st' m = with_running true (heap st m)) ∧
    (∀ m, ¬ descendant (heap st) N m -> heap st' m = heap st m).
Proof.
  intros Hnd Hflat HN Hh.
  destruct (prepareToRunTest_marked st Hnd Hflat n N st (during_refl st) HN Hh)
    as (st' & Hrun & _ & _ & Hmark).
  destruct (prepareToRunTest_only_marks_rel n N st st' Hrun)
    as (_ & L & _ & _ & Hheap).
  exists st'. split; [done|].
  assert (∀ m, heap st' m = heap st m ∨ heap st' m = with_running true (heap st m))
    as Hcases.
  { intros m. rewrite Hheap. case_decide; auto. }
  split.
  - intros m Hm. apply (descendant_preorder _ n) in Hm; [|done].
    specialize (Hmark m). rewrite decide_True in Hmark by done.
    destruct (Hcases m) as [Heq|Heq]; [|done].
    rewrite Heq in Hmark |- *. symmetry. by apply with_running_true_id.
  - intros m Hm. specialize (Hmark m).
    rewrite decide_False in Hmark by (intros Hin; by apply Hm, (preorder_descendant _ n)).
    destruct (Hcases m) as [Heq|Heq]; [done|].
    rewrite Heq in Hmark |- *. cbn in Hmark. symmetry in Hmark.
    by apply with_running_true_id.
Qed.

(** ** The tooltip *)

(** The result line of the tooltip tells the four cases apart, whatever
    the output of a failed test is: "-" exactly without a result,
    "passed" exactly for a passed one, "not passed" exactly for a failed
    one whose output is missing or empty, and otherwise two line feeds
    followed by the output. *)
Theorem tooltip_result_is_unambiguous (n : GinkgoNode) :
  (resultText n = "-" <-> result n = None) ∧
  (resultText n = "passed" <-> ∃ r, result n = Some r ∧ isPassed r = true) ∧
  (resultText n = "not passed" <->
     ∃ r, result n = Some r ∧ isPassed r = false ∧
          (output r = None ∨ output r = Some "")) ∧
  (∀ r o, result n = Some r -> isPassed r = false -> output r = Some o -> o ≠ "" ->
          resultText n = (newline ++ newline ++ o)%string).
Proof.
  unfold resultText.
  destruct (result n) as [[tn passed out]|] eqn:Hres; cbn [isPassed output].
  2: { split; [done|]. split; [split; [done|by intros (? & ? & _)]|].
       split; [split; [done|by intros (? & ? & _)]|]. done. }
  assert (∀ s : string, (newline ++ newline ++ s)%string ≠ "-" ∧
                        (newline ++ newline ++ s)%string ≠ "passed" ∧
                        (newline ++ newline ++ s)%string ≠ "not passed") as Hnl.
  { intros s. repeat split; discriminate. }
  split; [|split; [|split]].
  - split; [|done]. destruct passed; [done|].
    destruct (truthyString out); [|done]. intros H. by apply Hnl in H.
  - split.
    + destruct passed; [by eauto|].
      destruct (truthyString out); [|done]. intros H. by apply Hnl in H.
    + intros (r & [= <-] & Hp). cbn in Hp. by rewrite Hp.
  - split.
    + destruct passed; [done|]. intros H. eexists. split; [done|]. split; [done|].
      cbn [output]. destruct out as [o|]; [|by left]. right. f_equal.
      cbn [truthyString default] in H. destruct (String.eqb_spec o ""); [done|].
      cbn [negb] in H. by apply Hnl in H.
    + intros (r & [= <-] & Hp & Hout). cbn in Hp, Hout. rewrite Hp.
      by destruct Hout as [->| ->].
  - intros r o [= <-] Hp Ho Hne. cbn in Hp, Ho. rewrite Hp, Ho.
    cbn [truthyString default]. destruct (String.eqb_spec o ""); [done|]. done.
Qed.

(** ** The status bar *)

Module StatusBarFacts.

Import StatusBar.

Lemma call_step (runAll coverage : string) (c : BarCall) (b : Bar) :
  offered c ->
  runAllProjectTestCommand b = runAll ->
  generateProjectCoverageCommand b = coverage ->
  let b' := call c b in
  runAllProjectTestCommand b' = runAll ∧
  generateProjectCoverageCommand b' = coverage ∧
  item_text (commandsStatusBarItem b')
  = match c with
    | PickAnswered (Some label) => label
    | _ => item_text (commandsStatusBarItem b)
    end ∧
  visible (commandsStatusBarItem b') = visible (commandsStatusBarItem b) ∧
  item_command (commandsStatusBarItem b') = item_command (commandsStatusBarItem b) ∧
  item_command (runningCommandStatusBarItem b')
  = item_command (runningCommandStatusBarItem b) ∧
  visible (runningCommandStatusBarItem b')
  = match c with
    | ShowRunning _ => true
    | HideRunning => false
    | _ => visible (runningCommandStatusBarItem b)
    end ∧
  effects b' = effects b ++ option_list (effectOf runAll coverage c).
Proof.
  intros Hoff Hra Hcov. destruct c as [[label|]| |label|]; cbn [call effectOf option_list].
  - unfold onClickCommandsStatusBarItem. cbn in Hoff.
    destruct Hoff as [-> | ->].
    + rewrite bool_decide_eq_true_2 by done. cbn. by rewrite Hra.
    + rewrite (bool_decide_eq_false_2 (runProjectCoverage = runAllProjectTests))
        by discriminate.
      rewrite bool_decide_eq_true_2 by done. cbn. by rewrite Hcov.
  - cbn. by rewrite app_nil_r.
  - by cbn.
  - cbn. by rewrite app_nil_r.
  - cbn. by rewrite app_nil_r.
Qed.

(** From its construction on, through any calls whose quick-pick
    answers are among the two labels offered: the commands item stays
    visible with its click command and shows the label of the last
    answered pick (the run-all label before any); the running item keeps
    its click command and is visible exactly if the last show or hide
    was a show; and the effects are, in order, one command per answered
    pick, the one the label stands for, and one reveal of the output
    channel per click on the running item. A dismissed pick does
    nothing. *)
Theorem bar_follows_the_calls (clickCommands clickRunning runAll coverage : string)
    (cs : list BarCall) :
  Forall offered cs ->
  let b := calls cs (new_bar clickCommands clickRunning runAll coverage) in
  item_text (commandsStatusBarItem b) = default runAllProjectTests (lastPick cs) ∧
  visible (commandsStatusBarItem b) = true ∧
  item_command (commandsStatusBarItem b) = Some clickCommands ∧
  item_command (runningCommandStatusBarItem b) = Some clickRunning ∧
  visible (runningCommandStatusBarItem b) = runningShown false cs ∧
  effects b = omap (effectOf runAll coverage) cs ∧
  (∀ b0, call (PickAnswered None) b0 = b0).
Proof.
  intros Hoff b. subst b.
  assert (let b := calls cs (new_bar clickCommands clickRunning runAll coverage) in
          runAllProjectTestCommand b = runAll ∧
          generateProjectCoverageCommand b = coverage ∧
          item_text (commandsStatusBarItem b) = default runAllProjectTests (lastPick cs) ∧
          visible (commandsStatusBarItem b) = true ∧
          item_command (commandsStatusBarItem b) = Some clickCommands ∧
          item_command (runningCommandStatusBarItem b) = Some clickRunning ∧
          visible (runningCommandStatusBarItem b) = runningShown false cs ∧
          effects b = omap (effectOf runAll coverage) cs) as Hinv.
  { induction cs as [|c cs IH] using rev_ind; [by repeat split|].
    apply Forall_app in Hoff as [Hcs Hc]. apply Forall_inv in Hc.
    specialize (IH Hcs). cbv zeta in *. unfold calls in *. rewrite foldl_app. cbn [foldl].
    destruct IH as (Hra & Hcov & Htext & Hvis & Hcmd & Hrcmd & Hrvis & Heff).
    destruct (call_step runAll coverage c _ Hc Hra Hcov)
      as (Hra' & Hcov' & Htext' & Hvis' & Hcmd' & Hrcmd' & Hrvis' & Heff').
    split; [done|]. split; [done|]. split.
    { rewrite Htext', Htext. unfold lastPick. rewrite omap_app.
      destruct c as [[label|]| | |]; cbn [omap list_omap]; rewrite ?app_nil_r;
        rewrite ?last_snoc; done. }
    split; [congruence|]. split; [congruence|]. split; [congruence|]. split.
    { rewrite Hrvis', Hrvis. unfold runningShown. rewrite foldl_app. cbn [foldl].
      by destruct c as [[label|]| | |]. }
    rewrite Heff', Heff, omap_app. cbn [omap list_omap].
    by destruct (effectOf runAll coverage c). }
  cbv zeta in Hinv. destruct Hinv as (_ & _ & ? & ? & ? & ? & ? & ?).
  repeat split; done.
Qed.

End StatusBarFacts.

(** ** What keeps a pending refresh pending *)

Lemma dispatch_sched isRootNode ev st :
  (∀ evt, ev ≠ DocumentChanged evt) ->
  sched (dispatch isRootNode ev st) = sched st.
Proof.
  intros Hne. destruct ev; cbn [dispatch].
  - by destruct st.
  - by destruct st.
  - apply onTestResult_sched.
  - apply onActiveEditorChanged_sched.
  - by destruct (Hne evt).
  - destruct (updateListener st) as [[]|]; [|done..]. apply onDocumentSaved_sched.
  - apply clickTreeItem_sched.
Qed.

(** Only a document change re-arms or cancels the debounce timeout. With
    a timeout pending for [due], any events other than document changes
    that arrive before [due] (editor switches, saves, clicks,
    discoveries, run starts, result batches), and a change of the update
    mode, leave it pending, and when the clock reaches [due] it fires
    its full refresh. *)
Theorem pending_refresh_survives (isRootNode : GinkgoNode -> bool)
    (id : TimerId) (due : Z) (evs : list (Z * Event)) (mode : UpdateOn) (st : State) :
  timers st = [(id, due)] ->
  (∀ te, te ∈ evs -> te.1 < due ∧ ∀ evt, te.2 ≠ DocumentChanged evt) ->
  let st' := run isRootNode evs (setUpdateOn mode st) in
  timers st' = [(id, due)] ∧
  trace (advance due st') = trace st' ++ [TreeChanged None] ∧
  timers (advance due st') = [].
Proof.
  intros Htm Hevs st'.
  assert (timers st' = [(id, due)]) as Hpend.
  { subst st'.
    assert (timers (setUpdateOn mode st) = [(id, due)]) as Htm0 by (by destruct st).
    revert Htm0. generalize (setUpdateOn mode st) as s.
    induction evs as [|[t ev] evs IH]; intros s Hs; [done|].
    cbn [run]. destruct (Hevs (t, ev)) as [Hlt Hne]; [by left|]. cbn in Hlt, Hne.
    apply IH.
    - intros te Hte. apply Hevs. by right.
    - pose proof (dispatch_sched isRootNode ev (advance t s) Hne) as Hsch.
      unfold sched in Hsch. injection Hsch as -> _.
      rewrite (advance_not_due t id due) by done. by destruct s. }
  split; [done|].
  rewrite (advance_due due id due) by (done || lia). split; by destruct st'.
Qed.

(** ** A provider before the first discovery *)

(** A provider as the constructor leaves it: the delay is not negative
    (the threshold is taken as given); nothing is cached, discovered,
    clicked or pending; a batch of results changes nothing, and so does
    the preparation of a run of any node. *)
Theorem fresh_provider_is_inert (activeTextEditor : option TextEditor)
    (updateOn : UpdateOn) (delay threshold : Z) (h : Heap) (now : Z)
    (R : list TestResult) (N : loc) (fuel : nat) :
  let st := new_provider activeTextEditor updateOn delay threshold h now in
  0 <= updateOnTypeDelay st ∧
  doubleClickThreshold st = threshold ∧
  updateListener st = Some updateOn ∧
  editor st = activeTextEditor ∧
  roots st = [] ∧ timers st = [] ∧ trace st = [] ∧
  onTestResult R st = st ∧
  prepareToRunTest (S fuel) N st = Some st.
Proof.
  intros st. subst st. cbn -[onTestResult prepareToRunTest Z.max].
  split; [lia|]. do 6 (split; [reflexivity|]). split; [|reflexivity].
  apply onTestResult_noop.
  - intros r l _. cbn. by rewrite lookup_empty.
  - intros t Ht. cbn in Ht. by apply not_elem_of_nil in Ht.
Qed.

(** ** The further properties on the running example *)

Module MoreWitnesses.

Import Example.

Local Ltac in_list := apply list_elem_of_In; vm_compute; tauto.

Lemma getChildren_populates_cache_witness :
  (getChildren "go" parsed None s1).2 = Normal (Some [0%nat]).
Proof.
  destruct (getChildren_populates_cache "go" parsed ed outline0 s1) as (Hret & _);
    [reflexivity..|exact Hret].
Defined.

Lemma getChildren_without_go_document_witness :
  (getChildren "go" parsed None (onActiveEditorChanged (Some readme) s1)).2 = Normal None.
Proof.
  destruct (getChildren_without_go_document "go" parsed None
              (onActiveEditorChanged (Some readme) s1)) as (Hret & _).
  - right. exists readme. split; [reflexivity|discriminate].
  - exact Hret.
Defined.


Lemma onSave_mode_hears_only_saves_witness :
  trace (run isRoot (typing [(1000, change); (1100, change)]) sv) = trace sv.
Proof.
  destruct (onSave_mode_hears_only_saves isRoot sv [(1000, change); (1100, change)] doc)
    as (Hsave & _); [reflexivity|].
  destruct Hsave as (Htr & _); [reflexivity|exact Htr].
Defined.

(** Changes at 1000, 1100 and 1500 with a delay of 300: the timeout of
    the second has run when the third arrives. *)
Lemma debounce_signal_count_witness :
  trace (advance 1800 (run isRoot (typing [(1000, change); (1100, change); (1500, change)]) s1))
  = trace s1 ++ [TreeChanged None; TreeChanged None].
Proof.
  destruct (debounce_signal_count isRoot s1 1000 change
              [(1100, change); (1500, change)] 1800) as (Hcount & _).
  - reflexivity.
  - reflexivity.
  - intros te Hte.
    repeat (apply elem_of_cons in Hte as [->|Hte]; [by split|]).
    by apply not_elem_of_nil in Hte.
  - exact Hcount.
Defined.

Lemma click_after_click_witness :
  let s := advance 1200 (clickTreeItem 2%nat s1) in
  trace (clickTreeItem 2%nat s) = trace s ++ doubleClickIntent ed 2%nat.
Proof.
  intros s.
  destruct (click_after_click 2%nat 2%nat ed 1200 s1) as (Hdouble & _).
  - reflexivity.
  - discriminate.
  - apply Hdouble. repeat split.
Defined.

Lemma nonpositive_threshold_never_double_witness :
  let s := advance 1001 (clickTreeItem 2%nat (setDoubleClickThreshold (-5) s1)) in
  trace (clickTreeItem 2%nat s) = trace s ++ singleClickIntent ed 2%nat.
Proof.
  intros s.
  destruct (nonpositive_threshold_never_double 2%nat ed s) as (Hsingle & _).
  - reflexivity.
  - vm_compute. discriminate.
  - intros t Ht. vm_compute in Ht. injection Ht as <-. vm_compute. discriminate.
  - exact Hsingle.
Defined.

Lemma stale_nodes_are_never_touched_witness :
  heap (onTestResults [[passedA]; []] (onDicoveredTest isRoot [0; 1; 2]%nat r1)) 3%nat
  = heap r1 3%nat.
Proof.
  apply stale_nodes_are_never_touched.
  intros Hin. repeat (apply elem_of_cons in Hin as [Hin|Hin]; [discriminate Hin|]).
  by apply not_elem_of_nil in Hin.
Defined.

Lemma run_started_then_result_witness :
  heap (onTestResult [passedA] (onTestRunStarted 2%nat s1)) 2%nat
  = with_result (Some passedA) (heap s1 2%nat).
Proof.
  destruct (run_started_then_result 2%nat passedA s1) as (Hobj & _).
  - exact Witnesses.s1_indexed.
  - in_list.
  - reflexivity.
  - intros t Ht.
    repeat (apply elem_of_cons in Ht as [->|Ht]; [reflexivity|]).
    by apply not_elem_of_nil in Ht.
  - exact Hobj.
Defined.

Lemma prepareToRunTest_only_marks_witness :
  provider_fields (default s1 (prepareToRunTest 2 1%nat s1)) = provider_fields s1.
Proof.
  destruct (prepareToRunTest 2 1%nat s1) as [s'|] eqn:Hrun; [|discriminate Hrun].
  destruct (prepareToRunTest_only_marks 2 1%nat s1 s' Hrun) as (Hf & _).
  exact Hf.
Defined.

Lemma prepareToRunTest_marks_exactly_subtree_witness :
  ∃ st', prepareToRunTest 2 1%nat s1 = Some st' ∧ heap st' 0%nat = heap s1 0%nat.
Proof.
  destruct (prepareToRunTest_marks_exactly_subtree s1 1%nat 2) as (st' & Hrun & _ & Hrest).
  - apply Witnesses.keys_unique. reflexivity.
  - intros t c Ht Hc.
    repeat (apply elem_of_cons in Ht as [->|Ht];
            [vm_compute in Hc;
             repeat (apply elem_of_cons in Hc as [->|Hc]; [in_list|]);
             by apply not_elem_of_nil in Hc|]).
    by apply not_elem_of_nil in Ht.
  - in_list.
  - reflexivity.
  - exists st'. split; [exact Hrun|]. apply Hrest.
    intros Hd. inversion Hd as [|? c ? Hc Hd1]; subst.
    vm_compute in Hc.
    repeat (apply elem_of_cons in Hc as [->|Hc];
            [inversion Hd1 as [|? c' ? Hc' _]; subst;
             vm_compute in Hc'; by apply not_elem_of_nil in Hc'|]).
    by apply not_elem_of_nil in Hc.
Defined.

Lemma bar_follows_the_calls_witness :
  StatusBar.effects
    (StatusBar.calls [StatusBar.PickAnswered (Some StatusBar.runProjectCoverage);
                      StatusBar.ShowRunning "suite"; StatusBar.PickAnswered None]
       (StatusBar.new_bar "click" "running" "runAll" "coverage"))
  = [StatusBar.Executed "coverage"].
Proof.
  destruct (StatusBarFacts.bar_follows_the_calls "click" "running" "runAll" "coverage"
              [StatusBar.PickAnswered (Some StatusBar.runProjectCoverage);
               StatusBar.ShowRunning "suite"; StatusBar.PickAnswered None])
    as (_ & _ & _ & _ & _ & Heff & _).
  - apply Forall_cons. split; [by right|].
    apply Forall_cons. split; [exact I|].
    apply Forall_cons. split; [exact I|]. apply Forall_nil_2.
  - exact Heff.
Defined.

Lemma pending_refresh_survives_witness :
  let st' := run isRoot [(1100, ActiveEditorChanged (Some ed)); (1200, Click 2%nat)]
               (setUpdateOn onSave sp) in
  timers st' = [(0%nat, 1300)] ∧
  trace (advance 1300 st') = trace st' ++ [TreeChanged None].
Proof.
  intros st'.
  destruct (pending_refresh_survives isRoot 0%nat 1300
              [(1100, ActiveEditorChanged (Some ed)); (1200, Click 2%nat)] onSave sp)
    as (Hpend & Hfire & _).
  - reflexivity.
  - intros te Hte.
    repeat (apply elem_of_cons in Hte as [->|Hte]; [split; [reflexivity|discriminate]|]).
    by apply not_elem_of_nil in Hte.
  - split; [exact Hpend|exact Hfire].
Defined.

End MoreWitnesses.
